(** * go-smpp: PDU field codec (package pdufield) and text-length constants
    (package pdutext)

    A shallow embedding of
    - [smpp/pdu/pdufield/types.go]  (field values and their [Bytes] methods,
      the concatenation Information Element),
    - [smpp/pdu/pdufield/body.go]   ([New]),
    - [smpp/pdu/pdufield/list.go]   ([List.Decode]),
    - [smpp/pdu/pdutext/constants.go] and the [maxLen] selection of the
      long-message path,
    followed by the properties proved about them.

    Conventions.  An octet is a [Byte.byte]; a Go [int] is a [Z] (every
    [int] of this code is an octet, a length, or a difference of a few of
    them, far from the word bounds); a [[]byte] value stored in a field is
    the list of its elements.  A run-time panic of Go is an outcome of its
    own, never a default value. *)

From Stdlib Require Import ZArith Lia List String.
From Stdlib.Strings Require Import Byte.
From stdpp Require Import base option list gmap strings.

Local Open Scope Z_scope.

(** ** Octets *)

(** [int(b)] for an octet [b]. *)
Definition int_of_byte (b : byte) : Z := Z.of_N (Byte.to_N b).

(** [byte(z)]: conversion of an integer to [uint8] keeps the low 8 bits. *)
Definition byte_of_int (z : Z) : byte :=
  match Byte.of_N (Z.to_N (z mod 256)) with
  | Some b => b
  | None => x00
  end.

(** ** Package pdutext *)

Module pdutext.


(** [type DataCoding uint8]. *)
Definition DataCoding : Type := byte.

(** Modelled from the spec: the data-coding constants of pdutext (their
    declaration is not among the sources).  The spec gives "0x00 GSM
    default", "0x03 Latin-1" and "0x08 UCS-2-BE". *)
Definition DefaultType : DataCoding := x00.
Definition Latin1Type : DataCoding := x03.
Definition UCS2Type : DataCoding := x08.

(** The text codecs of pdutext that [List.Decode] calls.  Their code is not
    among the sources, so the decoders, and the one data-coding constant
    the spec does not give, are an interface: everything below holds for
    every implementation of it. *)
Class Codecs : Type := {
  GSM7_Decode : list byte → list byte;
  Latin1_Decode : list byte → list byte;
  UCS2_Decode : list byte → list byte;
  ISO88595_Decode : list byte → list byte;
  ISO88595Type : DataCoding
}.

(** An implementation of [Codecs] to run [Decode] on sample frames: every
    decoder puts an octet of its own in front of its input ("G", "L", "U",
    "I"), so that a decoded message shows which decoder produced it. *)
Definition marking_codecs : Codecs := {|
  GSM7_Decode := cons x47;
  Latin1_Decode := cons x4c;
  UCS2_Decode := cons x55;
  ISO88595_Decode := cons x49;
  ISO88595Type := x06
|}.

(** The codec types told apart by the type switch of the long-message
    path; [Other] stands for every codec the switch leaves to its
    default. *)
Inductive Codec : Type := GSM7 | GSM7Packed | UCS2 | Other.

End pdutext.

(** ** Package pdufield: names and field values ([types.go]) *)

Module pdufield.

(** [type Name string]. *)
Definition Name : Type := string.

Local Open Scope string_scope.

Definition AddrNPI : Name := "addr_npi".
Definition AddrTON : Name := "addr_ton".
Definition AddressRange : Name := "address_range".
Definition DataCoding : Name := "data_coding".
Definition DestAddrNPI : Name := "dest_addr_npi".
Definition DestAddrTON : Name := "dest_addr_ton".
Definition DestinationAddr : Name := "destination_addr".
Definition DestinationList : Name := "dest_addresses".
Definition ESMClass : Name := "esm_class".
Definition ErrorCode : Name := "error_code".
Definition FinalDate : Name := "final_date".
Definition InterfaceVersion : Name := "interface_version".
Definition MessageID : Name := "message_id".
Definition MessageState : Name := "message_state".
Definition NumberDests : Name := "number_of_dests".
Definition NoUnsuccess : Name := "no_unsuccess".
Definition Password : Name := "password".
Definition PriorityFlag : Name := "priority_flag".
Definition ProtocolID : Name := "protocol_id".
Definition RegisteredDelivery : Name := "registered_delivery".
Definition ReplaceIfPresentFlag : Name := "replace_if_present_flag".
Definition SMDefaultMsgID : Name := "sm_default_msg_id".
Definition SMLength : Name := "sm_length".
Definition ScheduleDeliveryTime : Name := "schedule_delivery_time".
Definition ServiceType : Name := "service_type".
Definition ShortMessage : Name := "short_message".
Definition SourceAddr : Name := "source_addr".
Definition SourceAddrNPI : Name := "source_addr_npi".
Definition SourceAddrTON : Name := "source_addr_ton".
Definition SystemID : Name := "system_id".
Definition SystemType : Name := "system_type".
Definition UDHLength : Name := "gsm_sms_ud.udh.len".
Definition GSMUserData : Name := "gsm_sms_ud.udh".
Definition UnsuccessSme : Name := "unsuccess_sme".
Definition ValidityPeriod : Name := "validity_period".

Local Close Scope string_scope.

Definition UDHIEIConcatenatedShortMessage8Bit : byte := x00.
Definition UDHIEIConcatenatedShortMessage16Bit : byte := x08.
Definition ESMClassUDHIndicator : byte := x40.

(** [k] is one of the names listed in a [case]. *)
Definition name_in (k : Name) (names : list Name) : bool :=
  existsb (String.eqb k) names.

(** [DestSme]: [Flag], [Ton], [Npi] are [Fixed] (one octet), [DestAddr] is
    a [Variable] (its [Data]). *)
Record DestSme : Type := {
  Flag : byte;
  Ton : byte;
  Npi : byte;
  DestAddr : list byte
}.

(** [UnSme]: [Ton], [Npi] are [Fixed], [DestAddr] and [ErrCode] are
    [Variable]. *)
Record UnSme : Type := {
  UnTon : byte;
  UnNpi : byte;
  UnDestAddr : list byte;
  ErrCode : list byte
}.

(** [UDHIE]: an Information Element of a User Data Header. *)
Record UDHIE : Type := {
  IEI : byte;
  IELength : byte;
  IEData : list byte
}.

(** The implementations of the interface [Body] that a field map holds
    ([Variable'] is Go's [Variable], a reserved word here). *)
Inductive Body : Type :=
| Fixed (Data : byte)
| Variable' (Data : list byte)
| Null
| SM (Data : list byte)
| DestSmeList (Data : list DestSme)
| UnSmeList (Data : list UnSme)
| UDH (IE : list UDHIE).

(** [Variable.Bytes]. *)
Definition Variable_Bytes (Data : list byte) : list byte :=
  match last Data with
  | Some x00 => Data
  | _ => Data ++ [x00]
  end.

(** [DestSme.Bytes]. *)
Definition DestSme_Bytes (ds : DestSme) : list byte :=
  [Flag ds] ++ [Ton ds] ++ [Npi ds] ++ Variable_Bytes (DestAddr ds).

(** [UnSme.Bytes]. *)
Definition UnSme_Bytes (us : UnSme) : list byte :=
  [UnTon us] ++ [UnNpi us] ++ Variable_Bytes (UnDestAddr us)
  ++ Variable_Bytes (ErrCode us).

(** [UDHIE.Bytes] and [UDHIE.Len]. *)
Definition UDHIE_Bytes (ie : UDHIE) : list byte :=
  IEI ie :: IELength ie :: IEData ie.

Definition UDHIE_Len (ie : UDHIE) : Z := 2 + Z.of_nat (length (IEData ie)).

(** [UDH.Bytes] and [UDH.Len]: the loop over [udh.IE]. *)
Fixpoint UDH_Bytes (ies : list UDHIE) : list byte :=
  match ies with
  | [] => []
  | ie :: ies' => UDHIE_Bytes ie ++ UDH_Bytes ies'
  end.

Fixpoint UDH_Len (ies : list UDHIE) : Z :=
  match ies with
  | [] => 0
  | ie :: ies' => UDHIE_Len ie + UDH_Len ies'
  end.

(** [Bytes] of the interface [Body]. *)
Definition Bytes (b : Body) : list byte :=
  match b with
  | Fixed d => [d]
  | Variable' d => Variable_Bytes d
  | Null => []
  | SM d => d
  | DestSmeList l => concat (map DestSme_Bytes l)
  | UnSmeList l => concat (map UnSme_Bytes l)
  | UDH ies => UDH_Bytes ies
  end.

(** [Len] of the interface [Body]. *)
Definition Len (b : Body) : Z :=
  match b with
  | Fixed _ => 1
  | Null => 0
  | UDH ies => UDH_Len ies
  | _ => Z.of_nat (length (Bytes b))
  end.

(** [NewIEConcatenatedShortMessage(ref uint16, total int, part int)]. *)
Definition NewIEConcatenatedShortMessage (ref total part : Z) : UDHIE :=
  if 255 <? ref then
    {| IEI := UDHIEIConcatenatedShortMessage16Bit;
       IELength := x04;
       IEData := [byte_of_int (Z.shiftr ref 8); byte_of_int (Z.land ref 255);
                  byte_of_int total; byte_of_int part] |}
  else
    {| IEI := UDHIEIConcatenatedShortMessage8Bit;
       IELength := x03;
       IEData := [byte_of_int (Z.land ref 255);
                  byte_of_int total; byte_of_int part] |}.

(** [NewUDHConcatenatedShortMessage]: the [IE] list of the returned
    [UDH]. *)
Definition NewUDHConcatenatedShortMessage (ref total part : Z) : list UDHIE :=
  [NewIEConcatenatedShortMessage ref total part].

(** ** [New] ([body.go]) *)

(** The outcome of a call that may panic. *)
Inductive may_panic (A : Type) : Type :=
| Returns (a : A)
| Panics.
Arguments Returns {A} a.
Arguments Panics {A}.

(** A [[]byte] argument: [nil], or a slice given by its elements and by the
    octets of its backing array that lie between its length and its
    capacity.  Indexing is checked against the length, a slice expression
    against the capacity. *)
Inductive slice : Type :=
| nil_slice
| mk_slice (elems spare : list byte).

Definition slice_elems (s : slice) : list byte :=
  match s with
  | nil_slice => []
  | mk_slice elems _ => elems
  end.

Definition slice_spare (s : slice) : list byte :=
  match s with
  | nil_slice => []
  | mk_slice _ spare => spare
  end.

Definition New_fixed_names : list Name :=
  [AddrNPI; AddrTON; DataCoding; DestAddrNPI; DestAddrTON; ESMClass;
   ErrorCode; InterfaceVersion; MessageState; NumberDests; NoUnsuccess;
   PriorityFlag; ProtocolID; RegisteredDelivery; ReplaceIfPresentFlag;
   SMDefaultMsgID; SMLength; SourceAddrNPI; SourceAddrTON].

Definition New_variable_names : list Name :=
  [AddressRange; DestinationAddr; DestinationList; FinalDate; MessageID;
   Password; ScheduleDeliveryTime; ServiceType; SourceAddr; SystemID;
   SystemType; UnsuccessSme; ValidityPeriod].

(** The loop [for i := 0; i < len(data); { ... i += 2 + dataLength }] of the
    [GSMUserData] case.  [i] grows by at least 2 in every round, so
    [len(data) - i] rounds are enough: [fuel] bounds them, and is [0] only
    when [i] has reached [len(data)]. *)
Fixpoint New_GSMUserData_loop (fuel : nat) (data spare : list byte) (i : nat)
    (udh : list UDHIE) : may_panic (list UDHIE) :=
  match fuel with
  | O => Returns udh
  | S fuel' =>
    if (i <? length data)%nat then
      match data !! (i + 1)%nat, data !! i with
      | Some lb, Some iei =>
        let dataLength := Z.to_nat (int_of_byte lb) in
        if (i + 2 + dataLength <=? length data + length spare)%nat then
          let ie := {| IEI := iei; IELength := lb;
                       IEData := take dataLength (drop (i + 2) (data ++ spare)) |} in
          New_GSMUserData_loop fuel' data spare (i + 2 + dataLength)%nat (udh ++ [ie])
        else Panics
      | _, _ => Panics
      end
    else Returns udh
  end.

(** [New(n Name, data []byte) Body]; [None] is the [nil] of an unknown
    name. *)
Definition New (n : Name) (data : slice) : may_panic (option Body) :=
  if name_in n New_fixed_names then
    match data with
    | nil_slice => Returns (Some (Fixed x00))
    | mk_slice (b :: _) _ => Returns (Some (Fixed b))
    | mk_slice [] _ => Panics
    end
  else if name_in n New_variable_names then
    Returns (Some (Variable' (slice_elems data)))
  else if String.eqb n UDHLength then
    match slice_elems data with
    | [] => Returns (Some Null)
    | b :: _ => Returns (Some (Fixed b))
    end
  else if String.eqb n ShortMessage then
    Returns (Some (SM (slice_elems data)))
  else if String.eqb n GSMUserData then
    let elems := slice_elems data in
    if (2 <? length elems)%nat then
      match New_GSMUserData_loop (length elems) elems (slice_spare data) 0 [] with
      | Returns udh => Returns (Some (UDH udh))
      | Panics => Panics
      end
    else Returns (Some Null)
  else Returns None.

(** ** [bytes.Buffer], as [List.Decode] reads it *)

(** The errors a read may report.  A [bytes.Buffer] only ever reports
    [io.EOF]; [other_error] stands for what the [err != nil] tests of
    [Decode] would catch. *)
Inductive error : Type :=
| io_EOF
| other_error.

(** The unread portion of the buffer is a list of octets.
    [ReadByte] returns the next octet, or [io.EOF] on an empty buffer. *)
Definition ReadByte (r : list byte) : byte * option error * list byte :=
  match r with
  | [] => (x00, Some io_EOF, [])
  | b :: r' => (b, None, r')
  end.

(** [ReadBytes(delim)] returns the octets up to and including the first
    [delim]; without one it returns what was left, drains the buffer and
    reports [io.EOF]. *)
Fixpoint ReadBytes (delim : byte) (r : list byte)
    : list byte * option error * list byte :=
  match r with
  | [] => ([], Some io_EOF, [])
  | b :: r' =>
    if Byte.eqb b delim then ([b], None, r')
    else let '(line, err, rest) := ReadBytes delim r' in (b :: line, err, rest)
  end.

(** [Next(n)] returns the next [n] octets, or all of them when fewer are
    left; the slice expression inside it panics when [n] is negative. *)
Definition Next (n : Z) (r : list byte) : may_panic (list byte * list byte) :=
  if n <? 0 then Panics
  else Returns (take (Z.to_nat n) r, drop (Z.to_nat n) r).

(** ** [List.Decode] ([list.go]) *)

(** [type Map map[Name]Body] and [type List []Name]. *)
Abbreviation Map := (gmap Name Body).
Abbreviation List := (list Name).

(** The buffer, the map under construction and the local variables of
    [Decode]. *)
Record state : Type := mk_state {
  r : list byte;
  f : Map;
  unsuccessCount : Z;
  numDest : Z;
  udhLength : Z;
  smLength : Z;
  dataCoding : pdutext.DataCoding;
  udhiFlag : bool
}.

(** [f := make(Map)] and the zero values of the locals. *)
Definition init (buf : list byte) : state :=
  {| r := buf; f := ∅; unsuccessCount := 0; numDest := 0; udhLength := 0;
     smLength := 0; dataCoding := x00; udhiFlag := false |}.

Definition with_r (bs : list byte) (st : state) : state :=
  mk_state bs (f st) (unsuccessCount st) (numDest st) (udhLength st)
    (smLength st) (dataCoding st) (udhiFlag st).
Definition with_f (m : Map) (st : state) : state :=
  mk_state (r st) m (unsuccessCount st) (numDest st) (udhLength st)
    (smLength st) (dataCoding st) (udhiFlag st).
Definition with_unsuccessCount (z : Z) (st : state) : state :=
  mk_state (r st) (f st) z (numDest st) (udhLength st)
    (smLength st) (dataCoding st) (udhiFlag st).
Definition with_numDest (z : Z) (st : state) : state :=
  mk_state (r st) (f st) (unsuccessCount st) z (udhLength st)
    (smLength st) (dataCoding st) (udhiFlag st).
Definition with_udhLength (z : Z) (st : state) : state :=
  mk_state (r st) (f st) (unsuccessCount st) (numDest st) z
    (smLength st) (dataCoding st) (udhiFlag st).
Definition with_smLength (z : Z) (st : state) : state :=
  mk_state (r st) (f st) (unsuccessCount st) (numDest st) (udhLength st)
    z (dataCoding st) (udhiFlag st).
Definition with_dataCoding (d : pdutext.DataCoding) (st : state) : state :=
  mk_state (r st) (f st) (unsuccessCount st) (numDest st) (udhLength st)
    (smLength st) d (udhiFlag st).
Definition with_udhiFlag (b : bool) (st : state) : state :=
  mk_state (r st) (f st) (unsuccessCount st) (numDest st) (udhLength st)
    (smLength st) (dataCoding st) b.

(** How a piece of the loop body ends: it falls through with a value, it
    leaves the loop ([break loop]), it leaves [Decode] with an error
    ([return nil, err]), or it panics. *)
Inductive outcome (A : Type) : Type :=
| Value (a : A) (st : state)
| BreakLoop (st : state)
| ReturnErr (err : error)
| Panic.
Arguments Value {A} a st.
Arguments BreakLoop {A} st.
Arguments ReturnErr {A} err.
Arguments Panic {A}.

Definition M (A : Type) : Type := state → outcome A.

#[export] Instance M_ret : MRet M := λ A a st, Value a st.
#[export] Instance M_bind : MBind M := λ A B k m st,
  match m st with
  | Value a st' => k a st'
  | BreakLoop st' => BreakLoop st'
  | ReturnErr err => ReturnErr err
  | Panic => Panic
  end.

Definition get {A : Type} (proj : state → A) : M A := λ st, Value (proj st) st.
Definition put (upd : state → state) : M unit := λ st, Value tt (upd st).
Definition break_loop {A : Type} : M A := λ st, BreakLoop st.

(** [if err == io.EOF { break loop }; if err != nil { return nil, err }]
    after a read that left [rest] in the buffer. *)
Definition after_read {A : Type} (v : A) (err : option error)
    (rest : list byte) : M A := λ st,
  match err with
  | Some io_EOF => BreakLoop (with_r rest st)
  | Some e => ReturnErr e
  | None => Value v (with_r rest st)
  end.

(** [b, err := r.ReadByte()] with the two tests that follow it. *)
Definition readByte : M byte := λ st,
  let '(b, err, rest) := ReadByte (r st) in after_read b err rest st.

(** [b, err := r.ReadBytes(0x00)] with the two tests that follow it. *)
Definition readBytes (delim : byte) : M (list byte) := λ st,
  let '(line, err, rest) := ReadBytes delim (r st) in after_read line err rest st.

(** [r.Next(n)]. *)
Definition next (n : Z) : M (list byte) := λ st,
  match Next n (r st) with
  | Returns (bt, rest) => Value bt (with_r rest st)
  | Panics => Panic
  end.

(** [f[k] = v]. *)
Definition setField (k : Name) (v : Body) : M unit :=
  put (λ st : state, with_f (<[k := v]> (f st)) st).

Definition Decode_cstring_names : list Name :=
  [AddressRange; DestinationAddr; ErrorCode; FinalDate; MessageID;
   MessageState; Password; ScheduleDeliveryTime; ServiceType; SourceAddr;
   SystemID; SystemType; ValidityPeriod].

Definition Decode_fixed_names : list Name :=
  [AddrNPI; AddrTON; DataCoding; DestAddrNPI; DestAddrTON; ESMClass;
   InterfaceVersion; NumberDests; NoUnsuccess; PriorityFlag; ProtocolID;
   RegisteredDelivery; ReplaceIfPresentFlag; SMDefaultMsgID; SourceAddrNPI;
   SourceAddrTON; SMLength].

(** The inner [switch k] of the one-octet case: the values later fields
    depend on. *)
Definition remember (k : Name) (b : byte) : M unit :=
  if String.eqb k DataCoding then put (with_dataCoding b)
  else if String.eqb k NoUnsuccess then put (with_unsuccessCount (int_of_byte b))
  else if String.eqb k NumberDests then put (with_numDest (int_of_byte b))
  else if String.eqb k SMLength then put (with_smLength (int_of_byte b))
  else if String.eqb k ESMClass then
    let mask := 64 in
    put (with_udhiFlag (mask =? Z.land (int_of_byte b) mask))
  else mret tt.

(** [for i := udhLength; i > 0; i -= l + 2 { ... }] of the [GSMUserData]
    case.  [i] drops by at least 2 in every round, so [i] rounds are
    enough: [fuel] bounds them, and is [0] only when [i <= 0]. *)
Fixpoint GSMUserData_loop (fuel : nat) (i : Z) (ieList : list UDHIE)
    : M (list UDHIE) :=
  match fuel with
  | O => mret ieList
  | S fuel' =>
    if 0 <? i then
      iei ← readByte;
      lb ← readByte;
      let l := int_of_byte lb in
      bt ← next l;
      let ieList' := ieList ++ [{| IEI := iei; IELength := lb; IEData := bt |}] in
      if negb (Z.of_nat (length bt) =? l) then break_loop
      else GSMUserData_loop fuel' (i - (l + 2)) ieList'
    else mret ieList
  end.

(** [for i := 0; i < numDest; i++ { ... }] of the [DestinationList] case,
    by the number of rounds left. *)
Fixpoint DestinationList_loop (rounds : nat) (destList : list DestSme)
    : M (list DestSme) :=
  match rounds with
  | O => mret destList
  | S rounds' =>
    flag ← readByte;
    ton ← readByte;
    npi ← readByte;
    bt ← readBytes x00;
    DestinationList_loop rounds'
      (destList ++ [{| Flag := flag; Ton := ton; Npi := npi; DestAddr := bt |}])
  end.

(** [for i := 0; i < unsuccessCount; i++ { ... }] of the [UnsuccessSme]
    case. *)
Fixpoint UnsuccessSme_loop (rounds : nat) (unsList : list UnSme)
    : M (list UnSme) :=
  match rounds with
  | O => mret unsList
  | S rounds' =>
    ton ← readByte;
    npi ← readByte;
    bt ← readBytes x00;
    ec ← next 4;
    UnsuccessSme_loop rounds'
      (unsList ++ [{| UnTon := ton; UnNpi := npi; UnDestAddr := bt; ErrCode := ec |}])
  end.

Section Decode.
Context `{codecs : pdutext.Codecs}.

(** [switch dataCoding { ... }] of the [ShortMessage] case. *)
Definition decode_text (dc : pdutext.DataCoding) (msg : list byte) : list byte :=
  if Byte.eqb dc pdutext.DefaultType then pdutext.GSM7_Decode msg
  else if Byte.eqb dc pdutext.Latin1Type then pdutext.Latin1_Decode msg
  else if Byte.eqb dc pdutext.UCS2Type then pdutext.UCS2_Decode msg
  else if Byte.eqb dc pdutext.ISO88595Type then pdutext.ISO88595_Decode msg
  else msg.

(** The body of [for _, k := range l]: the [switch k]. *)
Definition Decode_field (k : Name) : M unit :=
  if name_in k Decode_cstring_names then
    b ← readBytes x00;
    setField k (Variable' b)
  else if name_in k Decode_fixed_names then
    b ← readByte;
    setField k (Fixed b);;
    remember k b
  else if String.eqb k UDHLength then
    udhi ← get udhiFlag;
    if negb udhi then setField k Null
    else
      b ← readByte;
      put (with_udhLength (int_of_byte b));;
      setField k (Fixed b)
  else if String.eqb k GSMUserData then
    udhi ← get udhiFlag;
    if negb udhi then setField k Null
    else
      i ← get udhLength;
      ieList ← GSMUserData_loop (Z.to_nat i) i [];
      setField k (UDH ieList)
  else if String.eqb k DestinationList then
    n ← get numDest;
    destList ← DestinationList_loop (Z.to_nat n) [];
    setField k (DestSmeList destList)
  else if String.eqb k UnsuccessSme then
    n ← get unsuccessCount;
    unsList ← UnsuccessSme_loop (Z.to_nat n) [];
    setField k (UnSmeList unsList)
  else if String.eqb k ShortMessage then
    udhi ← get udhiFlag;
    (if udhi : bool then
       put (λ st : state, with_smLength (smLength st - (udhLength st + 1)) st)
     else mret tt);;
    n ← get smLength;
    msg ← next n;
    dc ← get dataCoding;
    setField k (SM (decode_text dc msg))
  else mret tt.

(** [for _, k := range l { ... }]. *)
Fixpoint Decode_loop (l : List) : M unit :=
  match l with
  | [] => mret tt
  | k :: l' => Decode_field k;; Decode_loop l'
  end.

(** What [Decode] returns: [(f, nil)], [(nil, err)], or a panic. *)
Inductive result : Type :=
| Done (m : Map)
| Failed (err : error)
| Panicked.

(** [func (l List) Decode(r *bytes.Buffer) (Map, error)], on a buffer
    whose unread portion is [buf]. *)
Definition Decode (l : List) (buf : list byte) : result :=
  match Decode_loop l (init buf) with
  | Value _ st => Done (f st)
  | BreakLoop st => Done (f st)
  | ReturnErr err => Failed err
  | Panic => Panicked
  end.

(** The state in which the loop over [l] ends on the buffer [buf]. *)
Definition state_after (l : List) (buf : list byte) : state :=
  match Decode_loop l (init buf) with
  | Value _ st => st
  | BreakLoop st => st
  | _ => init buf
  end.

End Decode.

(** ** What the locals of [Decode] stand for *)

(** The octet the map holds for a one-octet field, [0] when the map holds
    none. *)
Definition fixed_value (m : Map) (k : Name) : Z :=
  match m !! k with
  | Some (Fixed b) => int_of_byte b
  | _ => 0
  end.

(** Bit 6 ([0x40]) of an [esm_class] octet: the UDH indicator. *)
Definition udhi_bit (esm_class : Z) : bool := 64 =? Z.land esm_class 64.

(** The data coding the map holds, [0x00] when it holds none. *)
Definition coding_of (m : Map) : pdutext.DataCoding :=
  match m !! DataCoding with
  | Some (Fixed b) => b
  | _ => x00
  end.

(** The locals agree with the fields parsed so far: [udhiFlag] is bit 6 of
    the parsed [esm_class], [dataCoding] the parsed [data_coding],
    [udhLength] the parsed [gsm_sms_ud.udh.len] octet, and, until
    [short_message] is decoded, [smLength] the parsed [sm_length]. *)
Definition context_ok (st : state) : Prop :=
  udhiFlag st = udhi_bit (fixed_value (f st) ESMClass)
  ∧ dataCoding st = coding_of (f st)
  ∧ (∀ b, f st !! UDHLength = Some (Fixed b) → udhLength st = int_of_byte b)
  ∧ (f st !! ShortMessage = None → smLength st = fixed_value (f st) SMLength).

(** A computation that touches nothing but the buffer, and reports no
    error. *)
Definition only_r {A : Type} (m : M A) : Prop :=
  ∀ st, match m st with
        | Value _ st' => st' = with_r (r st') st
        | BreakLoop st' => st' = with_r (r st') st
        | ReturnErr _ => False
        | Panic => True
        end.

(** ** The rest of [types.go] *)

(** [Variable.String]: the octets of the string it returns. *)
Definition Variable_String (Data : list byte) : list byte :=
  match last Data with
  | Some x00 => take (length Data - 1) Data
  | _ => Data
  end.

(** The [Len] method of each implementation, as it is written:
    [Fixed.Len], [Variable.Len], [Null.Len], [SM.Len]. *)
Definition Fixed_Len (Data : byte) : Z := 1.
Definition Variable_Len (Data : list byte) : Z :=
  Z.of_nat (length (Variable_Bytes Data)).
Definition Null_Len : Z := 0.
Definition SM_Len (Data : list byte) : Z := Z.of_nat (length Data).

(** [DestSme.Len]: [ds.Flag.Len() + ds.Ton.Len() + ds.Npi.Len() +
    ds.DestAddr.Len()]. *)
Definition DestSme_Len (ds : DestSme) : Z :=
  Fixed_Len (Flag ds) + Fixed_Len (Ton ds) + Fixed_Len (Npi ds)
  + Variable_Len (DestAddr ds).

(** [DestSmeList.Len]: [for i := range dsl.Data { ret = ret + ... }]. *)
Definition DestSmeList_Len (Data : list DestSme) : Z :=
  fold_left (λ ret ds, ret + DestSme_Len ds) Data 0.

(** [UnSme.Len]. *)
Definition UnSme_Len (us : UnSme) : Z :=
  Fixed_Len (UnTon us) + Fixed_Len (UnNpi us) + Variable_Len (UnDestAddr us)
  + Variable_Len (ErrCode us).

(** [UnSmeList.Len]. *)
Definition UnSmeList_Len (Data : list UnSme) : Z :=
  fold_left (λ ret us, ret + UnSme_Len us) Data 0.

(** [b.Len()] through the interface: the method of the implementation
    that [b] is. *)
Definition Body_Len (b : Body) : Z :=
  match b with
  | Fixed d => Fixed_Len d
  | Variable' d => Variable_Len d
  | Null => Null_Len
  | SM d => SM_Len d
  | DestSmeList l => DestSmeList_Len l
  | UnSmeList l => UnSmeList_Len l
  | UDH ies => UDH_Len ies
  end.

(** [binary.BigEndian.Uint16] on the two octets [b0], [b1]. *)
Definition BigEndian_Uint16 (b0 b1 : byte) : Z :=
  Z.lor (int_of_byte b1) (Z.shiftl (int_of_byte b0) 8).

(** [UDH.IsConcatenated]: [(concatenated, ref, total, part)].  Indexing
    [IEData] past its length panics. *)
Fixpoint IsConcatenated (ies : list UDHIE) : may_panic (bool * Z * Z * Z) :=
  match ies with
  | [] => Returns (false, 0, 1, 1)
  | ie :: ies' =>
    if Byte.eqb (IEI ie) UDHIEIConcatenatedShortMessage8Bit
       && Byte.eqb (IELength ie) x03 then
      match IEData ie with
      | d0 :: d1 :: d2 :: _ =>
          Returns (true, int_of_byte d0, int_of_byte d1, int_of_byte d2)
      | _ => Panics
      end
    else if Byte.eqb (IEI ie) UDHIEIConcatenatedShortMessage16Bit
            && Byte.eqb (IELength ie) x04 then
      match IEData ie with
      | d0 :: d1 :: d2 :: d3 :: _ =>
          Returns (true, BigEndian_Uint16 d0 d1, int_of_byte d2, int_of_byte d3)
      | _ => Panics
      end
    else IsConcatenated ies'
  end.

End pdufield.

(** ** Well-formed Information Elements *)

Module udh.

(** The length octet of an Information Element counts its data. *)
Definition IE_well_formed (ie : pdufield.UDHIE) : Prop :=
  Z.of_nat (length (pdufield.IEData ie)) = int_of_byte (pdufield.IELength ie).

(** The elements [UDH.IsConcatenated] looks for: IEI [0x00] with IELength
    3 (8-bit reference), and IEI [0x08] with IELength 4 (16-bit
    reference). *)
Definition concat8 (ie : pdufield.UDHIE) : Prop :=
  pdufield.IEI ie = pdufield.UDHIEIConcatenatedShortMessage8Bit
  ∧ pdufield.IELength ie = x03.
Definition concat16 (ie : pdufield.UDHIE) : Prop :=
  pdufield.IEI ie = pdufield.UDHIEIConcatenatedShortMessage16Bit
  ∧ pdufield.IELength ie = x04.

(** [records data ies]: the octets [data] are the records (IEI, IELength,
    IELength octets of data) of the elements [ies], one after the other,
    each of them entirely inside [data]. *)
Inductive records : list byte → list pdufield.UDHIE → Prop :=
| records_nil : records [] []
| records_cons (iei lb : byte) (d rest : list byte) (ies : list pdufield.UDHIE) :
    Z.of_nat (length d) = int_of_byte lb →
    records rest ies →
    records (iei :: lb :: d ++ rest)
      ({| pdufield.IEI := iei; pdufield.IELength := lb; pdufield.IEData := d |} :: ies).

End udh.

(** ** The values [Decode] builds, by field name *)

Module fieldmap.

Import pdufield.

(** [kind_ok k v]: [v] is a value that the case of [k] in [Decode]
    builds: a [Fixed] for a one-octet name, a [Variable] that ends in
    [0x00] for a C-string name, and so on; a [UDH] holds well-formed
    elements only. *)
Definition kind_ok (k : Name) (v : Body) : Prop :=
  match v with
  | Fixed _ => name_in k Decode_fixed_names = true ∨ k = UDHLength
  | Variable' d => name_in k Decode_cstring_names = true ∧ last d = Some x00
  | Null => k = UDHLength ∨ k = GSMUserData
  | SM _ => k = ShortMessage
  | DestSmeList _ => k = DestinationList
  | UnSmeList _ => k = UnsuccessSme
  | UDH ies => k = GSMUserData ∧ Forall udh.IE_well_formed ies
  end.

(** The names that have a case in the [switch] of [Decode]. *)
Definition handled (k : Name) : bool :=
  name_in k Decode_cstring_names || name_in k Decode_fixed_names
  || name_in k [UDHLength; GSMUserData; DestinationList; UnsuccessSme;
                ShortMessage].

(** The octets of an [UnSme] as [Decode] reads them: TON, NPI, the
    address, the error code. *)
Definition UnSme_wire (us : UnSme) : list byte :=
  UnTon us :: UnNpi us :: UnDestAddr us ++ ErrCode us.

(** The octets of a [DestSme] as [Decode] reads them. *)
Definition DestSme_wire (ds : DestSme) : list byte :=
  Flag ds :: Ton ds :: Npi ds :: DestAddr ds.

(** A C string: octets other than [0x00], then the [0x00]. *)
Definition cstring (d : list byte) : Prop :=
  ∃ body, d = body ++ [x00] ∧ x00 ∉ body.

End fieldmap.

(** ** Package smpp: the long-message path *)

Module smpp.

(** [maxLen := 133; switch sm.Text.(type) { ... }]: the payload octets of
    one part of a concatenated message, by the codec of its text. *)
Definition maxLen (text : pdutext.Codec) : Z :=
  match text with
  | pdutext.GSM7 => 152
  | pdutext.GSM7Packed => 132
  | pdutext.UCS2 => 132
  | pdutext.Other => 133
  end.

(** [countParts := int((len(rawMsg)-1)/maxLen) + 1] ([/] of Go truncates
    toward zero). *)
Definition countParts (text : pdutext.Codec) (len_rawMsg : Z) : Z :=
  Z.quot (len_rawMsg - 1) (maxLen text) + 1.






(** A slice expression [s[lo:hi]] on a slice whose capacity is its
    length. *)
Definition slice_expr (s : list byte) (lo hi : Z) : pdufield.may_panic (list byte) :=
  if (0 <=? lo) && (lo <=? hi) && (hi <=? Z.of_nat (length s)) then
    pdufield.Returns (take (Z.to_nat (hi - lo)) (drop (Z.to_nat lo) s))
  else pdufield.Panics.

(** The payload of part [i] (from 0): [rawMsg[i*maxLen:(i+1)*maxLen]], and
    [rawMsg[i*maxLen:]] for the last part. *)
Definition part_payload (text : pdutext.Codec) (rawMsg : list byte) (i : Z)
    : pdufield.may_panic (list byte) :=
  let len := Z.of_nat (length rawMsg) in
  if negb (i =? countParts text len - 1) then
    slice_expr rawMsg (i * maxLen text) ((i + 1) * maxLen text)
  else slice_expr rawMsg (i * maxLen text) len.

(** The [sm_length] octet of a part:
    [uint8(f[ShortMessage].Len() + udh.Len() + 1)]. *)
Definition part_sm_length (payload : list byte) (udh : list pdufield.UDHIE) : byte :=
  byte_of_int (pdufield.SM_Len payload + pdufield.UDH_Len udh + 1).

End smpp.

(** * Properties *)

Import pdufield.

(** ** Proof automation *)

(** Both sides are the same list up to the bracketing of [++]. *)
Ltac same_app :=
  repeat first [rewrite <- app_assoc | progress cbn [app]]; reflexivity.

(** Two different field names are different. *)
Ltac name_neq :=
  let H := fresh in intros H; vm_compute in H; discriminate H.

(** [k ≠ q] for a name [q] outside the list [k] was found in. *)
Ltac not_listed Hin :=
  let H := fresh in
  intros H; rewrite H in Hin; vm_compute in Hin; discriminate Hin.

(** [name ∉ l], decided by evaluation. *)
Ltac not_in_schema :=
  refine (bool_decide_unpack _ _); vm_compute; exact I.

(** A concrete name is not in a list of other names. *)
Ltac not_among :=
  let H := fresh in let H' := fresh in
  intros H; pose proof (bool_decide_pack _ H) as H'; vm_compute in H'; done.

(** A concrete name is in a list that holds it. *)
Ltac among := refine (bool_decide_unpack _ _); vm_compute; exact I.

(** The octet [0x00] is not in a list of other octets. *)
Ltac no_zero :=
  repeat (apply not_elem_of_cons; split; [discriminate|]);
  apply not_elem_of_nil.

(** After [f[k] = v], the map is unchanged away from [k]. *)
Ltac map_frame :=
  let q := fresh "q" in let Hq := fresh "Hq" in
  intros q Hq; cbn; by rewrite ?lookup_insert_ne by done.

(** [context_ok] after a field that none of the locals depends on, by the
    frame lemma [frame]. *)
Ltac ctx_other frame Hin :=
  apply frame; cbn; try done;
  apply lookup_insert_ne; first [done | name_neq | not_listed Hin].

(** [context_ok] after a field that sets one of the locals. *)
Ltac ctx_same :=
  unfold context_ok, fixed_value, coding_of; cbn;
  rewrite lookup_insert_eq, !lookup_insert_ne by name_neq;
  intros (? & ? & ? & ?); repeat split; first [done | congruence].

(** ** Octets *)

Lemma int_of_byte_range (b : byte) : 0 ≤ int_of_byte b < 256.
Proof.
  unfold int_of_byte. pose proof (Byte.to_N_bounded b). lia.
Qed.

Lemma int_of_byte_of_int (z : Z) : int_of_byte (byte_of_int z) = z mod 256.
Proof.
  unfold int_of_byte, byte_of_int.
  pose proof (Z.mod_pos_bound z 256 eq_refl) as Hz.
  destruct (Byte.of_N (Z.to_N (z mod 256))) as [b|] eqn:E.
  - apply Byte.to_of_N in E. rewrite E. lia.
  - apply Byte.of_N_None_iff in E. lia.
Qed.

Lemma int_of_byte_of_small (z : Z) :
  0 ≤ z ≤ 255 → int_of_byte (byte_of_int z) = z.
Proof.
  intros Hz. rewrite int_of_byte_of_int. apply Z.mod_small. lia.
Qed.

Lemma int_of_byte_inj (a b : byte) : int_of_byte a = int_of_byte b → a = b.
Proof.
  unfold int_of_byte. intros H. apply N2Z.inj in H.
  pose proof (Byte.of_to_N a) as Ha. rewrite H, Byte.of_to_N in Ha.
  congruence.
Qed.

(** ** [Variable.Bytes] *)

Lemma last_snoc_byte (l : list byte) (b : byte) : last (l ++ [b]) = Some b.
Proof. apply last_snoc. Qed.

Lemma last_Some_snoc (l : list byte) (b : byte) :
  last l = Some b → ∃ body, l = body ++ [b].
Proof.
  destruct l as [|a l'] using rev_ind; [discriminate|].
  rewrite last_snoc. intros [= ->]. eauto.
Qed.

(** C6, as the code has it.  [Variable{d}.Bytes()] always ends with a
    [0x00] terminator; the terminator is appended exactly when [d] is
    empty or its last octet is not [0x00], otherwise [d] is returned as it
    is (an input that already ends in [0x00] gets no second terminator);
    the empty sequence serializes to the single octet [0x00].  The output
    ends with exactly one [0x00] (the octet before the last, if any, is
    not [0x00]) exactly when [d] does not itself end with two [0x00]
    octets. *)
Theorem Variable_Bytes_terminator (d : list byte) :
  (∃ body, Variable_Bytes d = body ++ [x00])
  ∧ (Variable_Bytes d = d ++ [x00] ↔ d = [] ∨ last d ≠ Some x00)
  ∧ (last d = Some x00 → Variable_Bytes d = d)
  ∧ Variable_Bytes [] = [x00]
  ∧ ((∃ body, Variable_Bytes d = body ++ [x00] ∧ last body ≠ Some x00)
     ↔ ¬ (∃ body, d = body ++ [x00; x00])).
Proof.
  assert (Hlen : d ≠ d ++ [x00]).
  { intros H. apply (f_equal length) in H. rewrite length_app in H.
    simpl in H. lia. }
  assert (Hsnoc : ∀ body : list byte, body ++ [x00; x00] = (body ++ [x00]) ++ [x00])
    by (intros body; by rewrite <- app_assoc).
  unfold Variable_Bytes. split; [|split; [|split; [|split]]].
  - destruct (last d) as [b|] eqn:E; [|by eauto].
    destruct (Byte.byte_eq_dec b x00) as [->|Hb].
    + apply last_Some_snoc in E as [body ->]. eauto.
    + exists d. destruct b; congruence.
  - split.
    + intros H. destruct (last d) as [b|] eqn:E; [|by right].
      right. intros [= ->]. by apply Hlen.
    + intros [->|H]; [done|].
      destruct (last d) as [b|]; [|done].
      destruct b; congruence.
  - by intros ->.
  - done.
  - destruct (last d) as [b|] eqn:E.
    + destruct (Byte.byte_eq_dec b x00) as [->|Hb].
      * apply last_Some_snoc in E as [body0 ->]. split.
        -- intros (body & Hbody & Hlast) (body' & Hd).
           apply app_inj_tail in Hbody as [<- _].
           rewrite Hsnoc in Hd. apply app_inj_tail in Hd as [-> _].
           by rewrite last_snoc in Hlast.
        -- intros Hnot. exists body0. split; [done|].
           intros Hlast. apply last_Some_snoc in Hlast as [body' ->].
           apply Hnot. exists body'. by rewrite Hsnoc.
      * assert (Hb' : match b with x00 => d | _ => d ++ [x00] end = d ++ [x00])
          by (destruct b; congruence).
        rewrite Hb'. split.
        -- intros _ (body' & ->). rewrite Hsnoc, last_snoc in E. congruence.
        -- intros _. exists d. split; [done|]. rewrite E. congruence.
    + split.
      * intros _ (body' & ->). by rewrite Hsnoc, last_snoc in E.
      * intros _. exists d. split; [done|]. by rewrite E.
Qed.

(** C6 does not hold on an input that ends with two [0x00] octets: it is
    returned as it is, and so ends with two terminators, not exactly
    one. *)
Lemma Variable_Bytes_two_terminators :
  Variable_Bytes [x41; x00; x00] = [x41; x00; x00]
  ∧ ¬ (∃ body, Variable_Bytes [x41; x00; x00] = body ++ [x00]
               ∧ last body ≠ Some x00).
Proof.
  split; [reflexivity|]. intros (body & Hbody & Hlast).
  change (Variable_Bytes [x41; x00; x00]) with ([x41; x00] ++ [x00]) in Hbody.
  apply app_inj_tail in Hbody as [<- _]. by apply Hlast.
Qed.

(** ** The concatenation Information Element *)

Lemma land_255 (z : Z) : Z.land z 255 = z mod 256.
Proof. change 255 with (Z.ones 8). by rewrite Z.land_ones. Qed.

Lemma shiftr_8 (z : Z) : Z.shiftr z 8 = z / 256.
Proof. by rewrite Z.shiftr_div_pow2. Qed.

Lemma NewIE_8bit (ref total part : Z) :
  ref ≤ 255 →
  NewIEConcatenatedShortMessage ref total part =
    {| IEI := x00; IELength := x03;
       IEData := [byte_of_int (Z.land ref 255); byte_of_int total;
                  byte_of_int part] |}.
Proof.
  intros H. unfold NewIEConcatenatedShortMessage.
  by destruct (Z.ltb_spec 255 ref); [lia|].
Qed.

Lemma NewIE_16bit (ref total part : Z) :
  255 < ref →
  NewIEConcatenatedShortMessage ref total part =
    {| IEI := x08; IELength := x04;
       IEData := [byte_of_int (Z.shiftr ref 8); byte_of_int (Z.land ref 255);
                  byte_of_int total; byte_of_int part] |}.
Proof.
  intros H. unfold NewIEConcatenatedShortMessage.
  by destruct (Z.ltb_spec 255 ref); [|lia].
Qed.

(** C5.  For a 16-bit [ref] and [total], [part] in [0, 255],
    [NewUDHConcatenatedShortMessage(ref, total, part)] holds exactly one
    Information Element.  When [ref <= 0xFF] it has IEI [0x00], IELength
    3 and the data octets [ref, total, part]; otherwise it has IEI [0x08],
    IELength 4 and the data octets [ref_hi, ref_lo, total, part], where
    [ref = 256 * ref_hi + ref_lo] (big-endian). *)
Theorem NewUDHConcatenatedShortMessage_one_IE (ref total part : Z) :
  0 ≤ ref < 65536 → 0 ≤ total ≤ 255 → 0 ≤ part ≤ 255 →
  ∃ ie, NewUDHConcatenatedShortMessage ref total part = [ie]
    ∧ (ref ≤ 255 →
         IEI ie = x00 ∧ IELength ie = x03
         ∧ int_of_byte <$> IEData ie = [ref; total; part])
    ∧ (255 < ref →
         IEI ie = x08 ∧ IELength ie = x04
         ∧ ∃ ref_hi ref_lo,
             int_of_byte <$> IEData ie = [ref_hi; ref_lo; total; part]
             ∧ 0 ≤ ref_hi ≤ 255 ∧ 0 ≤ ref_lo ≤ 255
             ∧ ref = 256 * ref_hi + ref_lo).
Proof.
  intros Href Htotal Hpart.
  exists (NewIEConcatenatedShortMessage ref total part).
  split; [done|]. split; intros Hcase.
  - rewrite NewIE_8bit by done. cbn [IEI IELength IEData fmap list_fmap].
    rewrite land_255, !int_of_byte_of_int.
    rewrite Z.mod_mod by done.
    rewrite !Z.mod_small by lia. done.
  - rewrite NewIE_16bit by lia. cbn [IEI IELength IEData fmap list_fmap].
    do 2 (split; [done|]).
    exists (ref / 256), (ref mod 256).
    rewrite land_255, shiftr_8, !int_of_byte_of_int.
    rewrite Z.mod_mod by done.
    pose proof (Z.div_mod ref 256 ltac:(done)).
    pose proof (Z.mod_pos_bound ref 256 eq_refl).
    assert (0 ≤ ref / 256 ≤ 255).
    { split; [apply Z.div_pos; lia|].
      apply Z.lt_succ_r, Z.div_lt_upper_bound; lia. }
    rewrite (Z.mod_small (ref / 256)), (Z.mod_small total), (Z.mod_small part)
      by lia.
    repeat split; lia.
Qed.

(** ** The length constants *)


(** ** [New] on [GSMUserData] *)

Lemma records_UDH_Bytes (ies : list UDHIE) :
  Forall udh.IE_well_formed ies → udh.records (UDH_Bytes ies) ies.
Proof.
  induction 1 as [|[iei lb d] ies Hwf _ IH]; [constructor|].
  cbn. by constructor.
Qed.

Lemma records_inv (data : list byte) (ies : list UDHIE) :
  udh.records data ies →
  data = UDH_Bytes ies ∧ Forall udh.IE_well_formed ies.
Proof.
  induction 1 as [|iei lb d rest ies Hlen _ [-> IH]]; [by split|].
  split; [done|]. by constructor.
Qed.

(** The loop, started at the end of [pre] on records that fit, returns
    their elements. *)
Lemma New_loop_records (suf : list byte) (ies : list UDHIE) :
  udh.records suf ies →
  ∀ fuel pre spare acc,
    (length suf ≤ fuel)%nat →
    New_GSMUserData_loop fuel (pre ++ suf) spare (length pre) acc
    = Returns (acc ++ ies).
Proof.
  induction 1 as [|iei lb d rest ies Hlen _ IH]; intros fuel pre spare acc Hfuel.
  - rewrite !app_nil_r. destruct fuel as [|fuel]; [done|].
    cbn [New_GSMUserData_loop]. by rewrite Nat.ltb_irrefl.
  - destruct fuel as [|fuel]; [cbn in Hfuel; lia|].
    cbn [New_GSMUserData_loop].
    assert (Hd : Z.to_nat (int_of_byte lb) = length d) by lia.
    replace (length pre <? length (pre ++ iei :: lb :: d ++ rest))%nat with true
      by (symmetry; apply Nat.ltb_lt; rewrite length_app; cbn; lia).
    rewrite (lookup_app_r pre) by lia.
    replace (length pre + 1 - length pre)%nat with 1%nat by lia.
    rewrite (lookup_app_r pre) by lia.
    rewrite Nat.sub_diag. cbn [lookup list_lookup]. rewrite Hd.
    replace (length pre + 2 + length d <=?
             length (pre ++ iei :: lb :: d ++ rest) + length spare)%nat
      with true
      by (symmetry; apply Nat.leb_le; rewrite length_app; cbn;
          rewrite length_app; lia).
    replace ((pre ++ iei :: lb :: d ++ rest) ++ spare)
      with ((pre ++ [iei; lb]) ++ d ++ rest ++ spare)
      by same_app.
    rewrite drop_app_length' by (rewrite length_app; cbn; lia).
    rewrite take_app_length.
    replace (pre ++ iei :: lb :: d ++ rest)
      with ((pre ++ iei :: lb :: d) ++ rest)
      by same_app.
    replace (length pre + 2 + length d)%nat with (length (pre ++ iei :: lb :: d))
      by (rewrite length_app; cbn; lia).
    rewrite IH.
    + by rewrite <- app_assoc.
    + cbn in Hfuel. rewrite length_app in Hfuel. lia.
Qed.

(** On a slice without spare capacity, the loop returns only when the
    octets from [i] on are records that fit. *)
Lemma New_loop_returns (fuel : nat) :
  ∀ suf pre acc res,
    (length suf ≤ fuel)%nat →
    New_GSMUserData_loop fuel (pre ++ suf) [] (length pre) acc = Returns res →
    ∃ ies, udh.records suf ies ∧ res = acc ++ ies.
Proof.
  induction fuel as [|fuel IH]; intros suf pre acc res Hfuel Hloop.
  - destruct suf; [|cbn in Hfuel; lia]. cbn in Hloop.
    injection Hloop as <-. exists []. split; [constructor|by rewrite app_nil_r].
  - cbn [New_GSMUserData_loop] in Hloop.
    destruct suf as [|iei suf].
    { rewrite app_nil_r, Nat.ltb_irrefl in Hloop. injection Hloop as <-.
      exists []. split; [constructor|by rewrite app_nil_r]. }
    replace (length pre <? length (pre ++ iei :: suf))%nat with true in Hloop
      by (symmetry; apply Nat.ltb_lt; rewrite length_app; cbn; lia).
    rewrite (lookup_app_r pre) in Hloop by lia.
    replace (length pre + 1 - length pre)%nat with 1%nat in Hloop by lia.
    rewrite (lookup_app_r pre) in Hloop by lia.
    rewrite Nat.sub_diag in Hloop. cbn [lookup list_lookup] in Hloop.
    destruct suf as [|lb suf]; [done|]. cbn [lookup list_lookup] in Hloop.
    set (n := Z.to_nat (int_of_byte lb)) in *.
    destruct (Nat.leb_spec (length pre + 2 + n)
                (length (pre ++ iei :: lb :: suf) + length (@nil byte)))
      as [Hfit|]; [|done].
    rewrite length_app in Hfit. cbn in Hfit.
    rewrite app_nil_r in Hloop.
    assert (Hdata : take n (drop (length pre + 2) (pre ++ iei :: lb :: suf))
                    = take n suf).
    { replace (pre ++ iei :: lb :: suf) with ((pre ++ [iei; lb]) ++ suf)
        by same_app.
      rewrite drop_app_length'; [done|]. rewrite length_app. cbn. lia. }
    rewrite Hdata in Hloop.
    replace (pre ++ iei :: lb :: suf)
      with ((pre ++ iei :: lb :: take n suf) ++ drop n suf) in Hloop
      by (rewrite <- (take_drop n suf) at 3; same_app).
    replace (length pre + 2 + n)%nat
      with (length (pre ++ iei :: lb :: take n suf)) in Hloop
      by (rewrite length_app; cbn; rewrite length_take; lia).
    apply IH in Hloop as (ies & Hrec & ->).
    + eexists. split.
      * rewrite <- (take_drop n suf) at 1.
        apply udh.records_cons; [|exact Hrec].
        rewrite length_take. pose proof (int_of_byte_range lb). lia.
      * by rewrite <- app_assoc.
    + cbn in Hfuel. rewrite length_drop. lia.
Qed.

(** The bound on the rounds is never what ends the loop of [New]: any
    [fuel] of at least [len(data) - i] gives the same outcome. *)
Lemma New_GSMUserData_loop_fuel (fuel : nat) :
  ∀ fuel' data spare i acc,
    (length data - i ≤ fuel)%nat → (length data - i ≤ fuel')%nat →
    New_GSMUserData_loop fuel data spare i acc
    = New_GSMUserData_loop fuel' data spare i acc.
Proof.
  induction fuel as [|fuel IH]; intros fuel' data spare i acc H H'.
  - destruct fuel' as [|fuel']; [done|]. cbn [New_GSMUserData_loop].
    by replace (i <? length data)%nat with false
      by (symmetry; apply Nat.ltb_ge; lia).
  - cbn [New_GSMUserData_loop].
    destruct (Nat.ltb_spec i (length data)) as [Hi|Hi].
    + destruct fuel' as [|fuel']; [lia|]. cbn [New_GSMUserData_loop].
      replace (i <? length data)%nat with true
        by (symmetry; apply Nat.ltb_lt; lia).
      destruct (data !! (i + 1)%nat) as [lb|]; [|done].
      destruct (data !! i) as [iei|]; [|done].
      destruct (_ <=? _)%nat; [|done]. apply IH; lia.
    + destruct fuel' as [|fuel']; [done|]. cbn [New_GSMUserData_loop].
      by replace (i <? length data)%nat with false
        by (symmetry; apply Nat.ltb_ge; lia).
Qed.

(** The [GSMUserData] case of [New]. *)
Lemma New_GSMUserData (data : slice) :
  New GSMUserData data =
    if (2 <? length (slice_elems data))%nat then
      match New_GSMUserData_loop (length (slice_elems data)) (slice_elems data)
              (slice_spare data) 0 [] with
      | Returns ies => Returns (Some (UDH ies))
      | Panics => Panics
      end
    else Returns (Some Null).
Proof. reflexivity. Qed.

(** C9.  [New(GSMUserData, data)] trusts the IELength octet.  On
    [data = [0x00, 0x05, 0x00]] (3 octets, so the loop is entered) the slice
    expression for IEData reaches past the end of [data]: it panics when
    fewer than 4 octets of spare capacity follow, and otherwise returns an
    element whose data are octets from beyond [data].  Records that fit
    entirely inside [data] never panic; and on a slice without spare
    capacity, [New] returns only when [data] is made of such records. *)
Theorem New_GSMUserData_out_of_bounds :
  (2 < length [x00; x05; x00])%nat
  ∧ New GSMUserData (mk_slice [x00; x05; x00] []) = Panics
  ∧ (∀ spare,
       New GSMUserData (mk_slice [x00; x05; x00] spare) =
         if (length spare <? 4)%nat then Panics
         else Returns (Some (UDH [{| IEI := x00; IELength := x05;
                                     IEData := x00 :: take 4 spare |}])))
  ∧ (∀ data spare ies,
       udh.records data ies → New GSMUserData (mk_slice data spare) ≠ Panics)
  ∧ (∀ data,
       (2 < length data)%nat →
       New GSMUserData (mk_slice data []) ≠ Panics →
       ∃ ies, udh.records data ies).
Proof.
  split; [cbn; lia|]. split; [reflexivity|]. split; [|split].
  - intros spare. rewrite New_GSMUserData.
    destruct spare as [|a [|b [|c [|d spare]]]]; reflexivity.
  - intros data spare ies Hrec. rewrite New_GSMUserData.
    cbn [slice_elems slice_spare].
    pose proof (New_loop_records data ies Hrec (length data) [] spare []
                  (Nat.le_refl _)) as Hloop.
    cbn [app length] in Hloop. rewrite Hloop.
    by destruct (2 <? length data)%nat.
  - intros data Hlen Hsafe. rewrite New_GSMUserData in Hsafe.
    cbn [slice_elems slice_spare] in Hsafe.
    replace (2 <? length data)%nat with true in Hsafe
      by (symmetry; by apply Nat.ltb_lt).
    destruct (New_GSMUserData_loop (length data) data [] 0 []) as [res|] eqn:Hloop;
      [|done].
    apply (New_loop_returns (length data) data [] [] res (Nat.le_refl _)) in Hloop
      as (ies & Hrec & _).
    by exists ies.
Qed.

(** C10.  Parsing the serialization of a UDH gives the UDH back: when the
    IELength octet of every element counts its data and [udh.Bytes()] has
    more than 2 octets, [New(GSMUserData, udh.Bytes())] is a [UDH] with the
    same elements in the same order; when [udh.Bytes()] has 2 octets or
    fewer, it is [Null].  This holds whatever the capacity of the slice
    that [Bytes] returned. *)
Theorem New_GSMUserData_UDH_Bytes (ies : list UDHIE) (data : slice) :
  slice_elems data = Bytes (UDH ies) →
  Forall udh.IE_well_formed ies →
  ((2 < length (Bytes (UDH ies)))%nat →
     New GSMUserData data = Returns (Some (UDH ies)))
  ∧ ((length (Bytes (UDH ies)) ≤ 2)%nat →
     New GSMUserData data = Returns (Some Null)).
Proof.
  intros Hdata Hwf. rewrite New_GSMUserData, Hdata. cbn [Bytes].
  split; intros Hlen.
  - replace (2 <? length (UDH_Bytes ies))%nat with true
      by (symmetry; by apply Nat.ltb_lt).
    pose proof (New_loop_records _ _ (records_UDH_Bytes ies Hwf)
                  (length (UDH_Bytes ies)) [] (slice_spare data) []
                  (Nat.le_refl _)) as Hloop.
    cbn [app length] in Hloop. by rewrite Hloop.
  - by replace (2 <? length (UDH_Bytes ies))%nat with false
      by (symmetry; apply Nat.ltb_ge; cbn [Bytes] in Hlen; lia).
Qed.

(** ** [List.Decode]: the reads and the loops *)

Lemma only_r_ret {A : Type} (a : A) : only_r (mret a).
Proof. intros st. by destruct st. Qed.

Lemma only_r_break {A : Type} : only_r (@break_loop A).
Proof. intros st. by destruct st. Qed.

Lemma only_r_bind {A B : Type} (m : M A) (k : A → M B) :
  only_r m → (∀ a, only_r (k a)) → only_r (m ≫= k).
Proof.
  intros Hm Hk st. unfold mbind, M_bind. specialize (Hm st).
  destruct (m st) as [a st1|st1|err|]; try done.
  specialize (Hk a st1). destruct (k a st1) as [b st2|st2|err|]; try done.
  - by rewrite Hk, Hm.
  - by rewrite Hk, Hm.
Qed.

Lemma ReadBytes_error (delim : byte) (bs : list byte) :
  (ReadBytes delim bs).1.2 = None ∨ (ReadBytes delim bs).1.2 = Some io_EOF.
Proof.
  induction bs as [|b bs IH]; [by right|]. cbn.
  destruct (Byte.eqb b delim); [by left|].
  by destruct (ReadBytes delim bs) as [[line err] rest].
Qed.

Lemma only_r_readByte : only_r readByte.
Proof. intros st. unfold readByte. by destruct (r st). Qed.

Lemma only_r_readBytes (delim : byte) : only_r (readBytes delim).
Proof.
  intros st. unfold readBytes.
  destruct (ReadBytes_error delim (r st)) as [H|H];
    destruct (ReadBytes delim (r st)) as [[line err] rest];
    cbn in H; by subst err.
Qed.

Lemma only_r_next (n : Z) : only_r (next n).
Proof.
  intros st. unfold next, Next. by destruct (n <? 0).
Qed.

Lemma only_r_GSMUserData_loop (fuel : nat) :
  ∀ i ieList, only_r (GSMUserData_loop fuel i ieList).
Proof.
  induction fuel as [|fuel IH]; intros i ieList; [apply only_r_ret|].
  cbn [GSMUserData_loop]. destruct (0 <? i); [|apply only_r_ret].
  apply only_r_bind; [apply only_r_readByte|]. intros iei.
  apply only_r_bind; [apply only_r_readByte|]. intros lb.
  apply only_r_bind; [apply only_r_next|]. intros bt.
  destruct (negb _); [apply only_r_break|apply IH].
Qed.

(** The bound on the rounds is never what ends the loop: any [fuel] of at
    least [i] gives the same outcome. *)
Lemma GSMUserData_loop_fuel (fuel : nat) :
  ∀ fuel' i acc st,
    i ≤ Z.of_nat fuel → i ≤ Z.of_nat fuel' →
    GSMUserData_loop fuel i acc st = GSMUserData_loop fuel' i acc st.
Proof.
  induction fuel as [|fuel IH]; intros fuel' i acc st H H'.
  - destruct fuel' as [|fuel']; [done|]. cbn [GSMUserData_loop].
    by replace (0 <? i) with false by lia.
  - cbn [GSMUserData_loop]. destruct (Z.ltb_spec 0 i) as [Hi|Hi].
    + destruct fuel' as [|fuel']; [lia|]. cbn [GSMUserData_loop].
      replace (0 <? i) with true by lia.
      unfold mbind, M_bind.
      destruct (readByte st) as [iei st1|st1|err|]; try done.
      destruct (readByte st1) as [lb st2|st2|err|]; try done.
      destruct (next (int_of_byte lb) st2) as [bt st3|st3|err|]; try done.
      destruct (negb _); [done|].
      pose proof (int_of_byte_range lb). apply IH; lia.
    + destruct fuel' as [|fuel']; [done|]. cbn [GSMUserData_loop].
      by replace (0 <? i) with false by lia.
Qed.

Lemma only_r_DestinationList_loop (rounds : nat) :
  ∀ destList, only_r (DestinationList_loop rounds destList).
Proof.
  induction rounds as [|rounds IH]; intros destList; [apply only_r_ret|].
  cbn [DestinationList_loop].
  repeat (apply only_r_bind; [first [apply only_r_readByte|apply only_r_readBytes]|intros ?]).
  apply IH.
Qed.

Lemma only_r_UnsuccessSme_loop (rounds : nat) :
  ∀ unsList, only_r (UnsuccessSme_loop rounds unsList).
Proof.
  induction rounds as [|rounds IH]; intros unsList; [apply only_r_ret|].
  cbn [UnsuccessSme_loop].
  repeat (apply only_r_bind;
    [first [apply only_r_readByte|apply only_r_readBytes|apply only_r_next]|intros ?]).
  apply IH.
Qed.

Lemma context_ok_frame (st st' : state) :
  udhiFlag st' = udhiFlag st →
  dataCoding st' = dataCoding st →
  udhLength st' = udhLength st →
  smLength st' = smLength st →
  f st' !! ESMClass = f st !! ESMClass →
  f st' !! DataCoding = f st !! DataCoding →
  f st' !! UDHLength = f st !! UDHLength →
  f st' !! SMLength = f st !! SMLength →
  f st' !! ShortMessage = f st !! ShortMessage →
  context_ok st → context_ok st'.
Proof.
  unfold context_ok, fixed_value, coding_of.
  by intros -> -> -> -> -> -> -> -> ->.
Qed.

Section DecodeProperties.
Context `{codecs : pdutext.Codecs}.

(** One round of the loop: it keeps the agreement of the locals with the
    map, sets no key but [k], leaves the map alone when it breaks, and
    never returns an error. *)
Lemma Decode_field_spec (k : Name) (st : state) :
  match Decode_field k st with
  | Value _ st' =>
      (context_ok st → context_ok st')
      ∧ (∀ q, k ≠ q → f st' !! q = f st !! q)
  | BreakLoop st' => f st' = f st
  | ReturnErr _ => False
  | Panic => True
  end.
Proof.
  unfold Decode_field.
  destruct (name_in k Decode_cstring_names) eqn:Hc.
  { unfold mbind, M_bind. pose proof (only_r_readBytes x00 st) as Hr.
    destruct (readBytes x00 st) as [b st1|st1|e|]; [|by rewrite Hr|done..].
    cbn. rewrite Hr. split; [ctx_other context_ok_frame Hc|map_frame]. }
  destruct (name_in k Decode_fixed_names) eqn:Hf.
  { unfold mbind, M_bind. pose proof (only_r_readByte st) as Hr.
    destruct (readByte st) as [b st1|st1|e|]; [|by rewrite Hr|done..].
    cbn. rewrite Hr. unfold remember.
    destruct (String.eqb_spec k DataCoding) as [->|N1];
      [cbn; split; [ctx_same|map_frame]|].
    destruct (String.eqb_spec k NoUnsuccess) as [->|N2];
      [cbn; split; [ctx_other context_ok_frame Hf|map_frame]|].
    destruct (String.eqb_spec k NumberDests) as [->|N3];
      [cbn; split; [ctx_other context_ok_frame Hf|map_frame]|].
    destruct (String.eqb_spec k SMLength) as [->|N4];
      [cbn; split; [ctx_same|map_frame]|].
    destruct (String.eqb_spec k ESMClass) as [->|N5];
      [cbn; split; [ctx_same|map_frame]|].
    cbn. split; [ctx_other context_ok_frame Hf|map_frame]. }
  destruct (String.eqb_spec k UDHLength) as [->|N1].
  { unfold mbind, M_bind, get. destruct (udhiFlag st) eqn:Hu; cbn.
    - pose proof (only_r_readByte st) as Hr.
      destruct (readByte st) as [b st1|st1|e|]; [|by rewrite Hr|done..].
      cbn. rewrite Hr. split; [ctx_same|map_frame].
    - split; [ctx_same|map_frame]. }
  destruct (String.eqb_spec k GSMUserData) as [->|N2].
  { unfold mbind, M_bind, get. destruct (udhiFlag st) eqn:Hu; cbn.
    - pose proof (only_r_GSMUserData_loop (Z.to_nat (udhLength st))
                    (udhLength st) [] st) as Hr.
      destruct (GSMUserData_loop _ _ _ st) as [b st1|st1|e|];
        [|by rewrite Hr|done..].
      cbn. rewrite Hr. split; [ctx_other context_ok_frame Hc|map_frame].
    - split; [ctx_other context_ok_frame Hc|map_frame]. }
  destruct (String.eqb_spec k DestinationList) as [->|N3].
  { unfold mbind, M_bind, get.
    pose proof (only_r_DestinationList_loop (Z.to_nat (numDest st)) [] st) as Hr.
    destruct (DestinationList_loop _ _ st) as [b st1|st1|e|];
      [|by rewrite Hr|done..].
    cbn. rewrite Hr. split; [ctx_other context_ok_frame Hc|map_frame]. }
  destruct (String.eqb_spec k UnsuccessSme) as [->|N4].
  { unfold mbind, M_bind, get.
    pose proof (only_r_UnsuccessSme_loop (Z.to_nat (unsuccessCount st)) [] st) as Hr.
    destruct (UnsuccessSme_loop _ _ st) as [b st1|st1|e|];
      [|by rewrite Hr|done..].
    cbn. rewrite Hr. split; [ctx_other context_ok_frame Hc|map_frame]. }
  destruct (String.eqb_spec k ShortMessage) as [->|N5]; [|by cbn].
  unfold mbind, M_bind, get, put, next, Next.
  destruct (udhiFlag st) eqn:Hu; cbn.
  - destruct (_ <? 0); [done|]. cbn. split; [ctx_same|map_frame].
  - destruct (_ <? 0); [done|]. cbn. split; [ctx_same|map_frame].
Qed.

Lemma context_ok_init (buf : list byte) : context_ok (init buf).
Proof. by repeat split. Qed.

Lemma Decode_loop_cons (k : Name) (l : List) (st : state) :
  Decode_loop (k :: l) st =
    match Decode_field k st with
    | Value _ st' => Decode_loop l st'
    | BreakLoop st' => BreakLoop st'
    | ReturnErr err => ReturnErr err
    | Panic => Panic
    end.
Proof. reflexivity. Qed.

Lemma Decode_loop_app (l1 l2 : List) (st : state) :
  Decode_loop (l1 ++ l2) st =
    match Decode_loop l1 st with
    | Value _ st' => Decode_loop l2 st'
    | BreakLoop st' => BreakLoop st'
    | ReturnErr err => ReturnErr err
    | Panic => Panic
    end.
Proof.
  revert st. induction l1 as [|k l1 IH]; intros st; [done|].
  cbn [app]. rewrite !Decode_loop_cons.
  destruct (Decode_field k st) as [[] st1|st1|err|]; [apply IH|done..].
Qed.

(** The whole loop: the locals agree with the map, the map holds nothing
    for a name the loop has not met, and no error is returned. *)
Lemma Decode_loop_spec (l : List) :
  ∀ st,
    match Decode_loop l st with
    | Value _ st' =>
        (context_ok st → context_ok st')
        ∧ (∀ q, q ∉ l → f st' !! q = f st !! q)
    | BreakLoop _ => True
    | ReturnErr _ => False
    | Panic => True
    end.
Proof.
  induction l as [|k l IH]; intros st; [by cbn|].
  rewrite Decode_loop_cons. pose proof (Decode_field_spec k st) as Hk.
  destruct (Decode_field k st) as [[] st1|st1|err|]; try done.
  destruct Hk as [Hctx Hmap]. specialize (IH st1).
  destruct (Decode_loop l st1) as [[] st2|st2|err|]; try done.
  destruct IH as [Hctx' Hmap']. split; [tauto|].
  intros q Hq. apply not_elem_of_cons in Hq as [Hqk Hql].
  rewrite Hmap' by done. by apply Hmap.
Qed.

Lemma Decode_loop_context (l : List) (buf : list byte) (st : state) :
  Decode_loop l (init buf) = Value tt st →
  context_ok st ∧ (∀ q, q ∉ l → f st !! q = None).
Proof.
  intros H. pose proof (Decode_loop_spec l (init buf)) as Hl.
  rewrite H in Hl. destruct Hl as [Hctx Hmap]. split.
  - apply Hctx, context_ok_init.
  - intros q Hq. by rewrite Hmap.
Qed.

Lemma Decode_never_fails (l : List) (buf : list byte) (err : error) :
  Decode l buf ≠ Failed err.
Proof.
  unfold Decode. pose proof (Decode_loop_spec l (init buf)) as Hl.
  by destruct (Decode_loop l (init buf)).
Qed.

(** A field that breaks ends [Decode] with the map as it was before it. *)
Lemma Decode_break (pre post : List) (k : Name) (buf : list byte)
    (st st' : state) :
  Decode_loop pre (init buf) = Value tt st →
  Decode_field k st = BreakLoop st' →
  Decode (pre ++ k :: post) buf = Done (f st).
Proof.
  intros Hpre Hk. unfold Decode.
  rewrite Decode_loop_app, Hpre, Decode_loop_cons, Hk.
  pose proof (Decode_field_spec k st) as Hs. rewrite Hk in Hs.
  by rewrite Hs.
Qed.

(** ** [List.Decode]: the fields that depend on earlier ones *)

(** The [ShortMessage] case, by the UDHI flag. *)
Lemma Decode_field_ShortMessage (st : state) :
  Decode_field ShortMessage st =
    let st1 := if udhiFlag st
               then with_smLength (smLength st - (udhLength st + 1)) st
               else st in
    match Next (smLength st1) (r st) with
    | Returns (msg, rest) =>
        Value tt (with_f (<[ShortMessage := SM (decode_text (dataCoding st) msg)]> (f st))
                    (with_r rest st1))
    | Panics => Panic
    end.
Proof.
  unfold Decode_field. cbn [name_in existsb orb]. 
  change (name_in ShortMessage Decode_cstring_names) with false.
  change (name_in ShortMessage Decode_fixed_names) with false.
  cbn -[Next decode_text Z.sub Z.add].
  unfold mbind, M_bind, get, put, next.
  destruct (udhiFlag st); cbn -[Next decode_text Z.sub Z.add];
    by destruct (Next _ (r st)) as [[msg rest]|].
Qed.

(** C1, as the code has it.  While [Decode] walks a schema, the
    [short_message] field takes exactly [N] octets from the buffer when
    the UDHI flag is clear, and exactly [N - (U + 1)] when it is set and
    [N >= U + 1], where [N] is the [sm_length] octet and [U] the
    [gsm_sms_ud.udh.len] octet parsed before it (the map holds them);
    [count] is that number, it is not negative, and the buffer has at
    least [count] octets left.  The octets taken are the next [count] of
    the buffer, and [Decode] goes on with the fields after
    [short_message]. *)
Theorem ShortMessage_octets (pre : List) (buf : list byte) (st : state)
    (bN : byte) (count : Z) :
  Decode_loop pre (init buf) = Value tt st →
  ShortMessage ∉ pre →
  f st !! SMLength = Some (Fixed bN) →
  (udhiFlag st = false → count = int_of_byte bN) →
  (udhiFlag st = true →
     ∃ bU, f st !! UDHLength = Some (Fixed bU)
           ∧ count = int_of_byte bN - (int_of_byte bU + 1)) →
  0 ≤ count ≤ Z.of_nat (length (r st)) →
  ∃ st', Decode_field ShortMessage st = Value tt st'
    ∧ r st = take (Z.to_nat count) (r st) ++ r st'
    ∧ Z.of_nat (length (r st)) = count + Z.of_nat (length (r st'))
    ∧ (∀ post, Decode_loop (pre ++ ShortMessage :: post) (init buf)
               = Decode_loop post st').
Proof.
  intros Hpre Hnot HN Hclear Hset Hlen.
  destruct (Decode_loop_context pre buf st Hpre) as [(Hu & Hdc & HU & Hsm) Hdom].
  specialize (Hsm (Hdom _ Hnot)). unfold fixed_value in Hsm. rewrite HN in Hsm.
  assert (Hn : smLength (if udhiFlag st
                         then with_smLength (smLength st - (udhLength st + 1)) st
                         else st) = count).
  { destruct (udhiFlag st).
    - destruct (Hset eq_refl) as (bU & HbU & ->). cbn.
      rewrite (HU bU HbU), Hsm. done.
    - rewrite Hclear, Hsm; done. }
  assert (Hfield : ∃ st1, Decode_field ShortMessage st =
            Value tt (with_f (<[ShortMessage :=
                                 SM (decode_text (dataCoding st)
                                       (take (Z.to_nat count) (r st)))]> (f st))
                        (with_r (drop (Z.to_nat count) (r st)) st1))).
  { rewrite Decode_field_ShortMessage. cbn zeta. rewrite Hn. unfold Next.
    destruct (Z.ltb_spec count 0); [lia|]. eauto. }
  destruct Hfield as [st1 Hfield]. eexists. split; [exact Hfield|].
  cbn [r with_f with_r]. split; [|split].
  - by rewrite take_drop.
  - rewrite length_drop. lia.
  - intros post. by rewrite Decode_loop_app, Hpre, Decode_loop_cons, Hfield.
Qed.


Lemma decode_text_other (dc : pdutext.DataCoding) (msg : list byte) :
  dc ≠ pdutext.DefaultType → dc ≠ pdutext.Latin1Type →
  dc ≠ pdutext.UCS2Type → dc ≠ pdutext.ISO88595Type →
  decode_text dc msg = msg.
Proof.
  intros H1 H2 H3 H4. unfold decode_text.
  destruct (Byte.eqb dc pdutext.DefaultType) eqn:E1;
    [by apply Byte.byte_dec_bl in E1|].
  destruct (Byte.eqb dc pdutext.Latin1Type) eqn:E2;
    [by apply Byte.byte_dec_bl in E2|].
  destruct (Byte.eqb dc pdutext.UCS2Type) eqn:E3;
    [by apply Byte.byte_dec_bl in E3|].
  destruct (Byte.eqb dc pdutext.ISO88595Type) eqn:E4;
    [by apply Byte.byte_dec_bl in E4|].
  done.
Qed.

(** C3, as the code has it.  The octets stored for [short_message] are
    the raw octets [raw] taken from the buffer, passed through
    [decode_text] at the data coding of the context: the octet of the
    [data_coding] field parsed before, or [0x00] when there was none.
    So without a [data_coding] field before [short_message] the GSM7
    decoder is applied; [0x03] selects the Latin-1 decoder and [0x08] the
    UCS-2 one; a data coding that is none of [DefaultType], [Latin1Type],
    [UCS2Type], [ISO88595Type] leaves the raw octets as they are. *)
Theorem ShortMessage_decoder (pre : List) (buf : list byte) (st st' : state) :
  Decode_loop pre (init buf) = Value tt st →
  Decode_field ShortMessage st = Value tt st' →
  ∃ raw,
    r st = raw ++ r st'
    ∧ f st' !! ShortMessage = Some (SM (decode_text (coding_of (f st)) raw))
    ∧ (∀ b, f st !! DataCoding = Some (Fixed b) → coding_of (f st) = b)
    ∧ (DataCoding ∉ pre →
         f st' !! ShortMessage = Some (SM (pdutext.GSM7_Decode raw)))
    ∧ decode_text pdutext.DefaultType raw = pdutext.GSM7_Decode raw
    ∧ decode_text pdutext.Latin1Type raw = pdutext.Latin1_Decode raw
    ∧ decode_text pdutext.UCS2Type raw = pdutext.UCS2_Decode raw
    ∧ (∀ dc, dc ≠ pdutext.DefaultType → dc ≠ pdutext.Latin1Type →
             dc ≠ pdutext.UCS2Type → dc ≠ pdutext.ISO88595Type →
             decode_text dc raw = raw).
Proof.
  intros Hpre Hfield.
  destruct (Decode_loop_context pre buf st Hpre) as [(Hu & Hdc & HU & Hsm) Hdom].
  rewrite Decode_field_ShortMessage in Hfield. cbn zeta in Hfield.
  unfold Next in Hfield.
  destruct (_ <? 0) in Hfield; [done|]. injection Hfield as <-.
  eexists. cbn [r f with_f with_r]. split; [by rewrite take_drop|].
  rewrite lookup_insert_eq, Hdc.
  split; [done|]. split.
  { intros b Hb. unfold coding_of. by rewrite Hb. }
  split.
  { intros Hnone. unfold coding_of. by rewrite (Hdom _ Hnone). }
  do 3 (split; [done|]). intros dc. apply decode_text_other.
Qed.

Lemma Decode_field_UDHLength (st : state) :
  Decode_field UDHLength st =
    if udhiFlag st then
      match r st with
      | [] => BreakLoop (with_r [] st)
      | b :: rest =>
          Value tt (with_f (<[UDHLength := Fixed b]> (f st))
                      (with_udhLength (int_of_byte b) (with_r rest st)))
      end
    else Value tt (with_f (<[UDHLength := Null]> (f st)) st).
Proof.
  unfold Decode_field.
  change (name_in UDHLength Decode_cstring_names) with false.
  change (name_in UDHLength Decode_fixed_names) with false.
  cbn. unfold mbind, M_bind, get, readByte.
  destruct (udhiFlag st); [|done]. cbn. by destruct (r st).
Qed.

Lemma Decode_field_GSMUserData (st : state) :
  Decode_field GSMUserData st =
    if udhiFlag st then
      match GSMUserData_loop (Z.to_nat (udhLength st)) (udhLength st) [] st with
      | Value ieList st1 =>
          Value tt (with_f (<[GSMUserData := UDH ieList]> (f st1)) st1)
      | BreakLoop st1 => BreakLoop st1
      | ReturnErr err => ReturnErr err
      | Panic => Panic
      end
    else Value tt (with_f (<[GSMUserData := Null]> (f st)) st).
Proof.
  unfold Decode_field.
  change (name_in GSMUserData Decode_cstring_names) with false.
  change (name_in GSMUserData Decode_fixed_names) with false.
  cbn -[GSMUserData_loop]. unfold mbind, M_bind, get.
  destruct (udhiFlag st); [|done]. cbn -[GSMUserData_loop].
  by destruct (GSMUserData_loop _ _ _ st).
Qed.



Lemma GSMUserData_loop_exhausted (fuel : nat) :
  ∀ i acc st,
    i ≤ Z.of_nat fuel → Z.of_nat (length (r st)) < i →
    ∃ st', GSMUserData_loop fuel i acc st = BreakLoop st'.
Proof.
  induction fuel as [|fuel IH]; intros i acc st Hfuel Hshort; [lia|].
  cbn [GSMUserData_loop]. replace (0 <? i) with true by lia.
  unfold mbind, M_bind, readByte.
  destruct (r st) as [|iei r1] eqn:Hr; [cbn; eauto|]. cbn.
  destruct r1 as [|lb r2]; [cbn; eauto|]. cbn.
  pose proof (int_of_byte_range lb) as Hlb.
  unfold next, Next. replace (int_of_byte lb <? 0) with false by lia. cbn.
  destruct (Z.eqb_spec (Z.of_nat (length (take (Z.to_nat (int_of_byte lb)) r2)))
              (int_of_byte lb)) as [Hbt|Hbt]; cbn; [|eauto].
  apply IH; [lia|]. cbn. rewrite length_drop.
  rewrite length_take in Hbt. cbn in Hshort. lia.
Qed.

Lemma GSMUserData_loop_no_error (fuel : nat) (i : Z) (acc : list UDHIE)
    (st : state) (err : error) :
  GSMUserData_loop fuel i acc st ≠ ReturnErr err.
Proof.
  pose proof (only_r_GSMUserData_loop fuel i acc st) as H.
  by destruct (GSMUserData_loop fuel i acc st).
Qed.

(** C7.  With the UDHI flag set and a declared UDH length [U] greater
    than the number of octets left, the [gsm_sms_ud.udh] loop runs out of
    input (in front of an element, after its first octet, or inside its
    data) and [Decode] returns the map of the fields parsed before it,
    with a nil error.  The loop never returns an error. *)
Theorem GSMUserData_exhausted (pre post : List) (buf : list byte)
    (st : state) (bU : byte) :
  Decode_loop pre (init buf) = Value tt st →
  udhiFlag st = true →
  f st !! UDHLength = Some (Fixed bU) →
  Z.of_nat (length (r st)) < int_of_byte bU →
  Decode (pre ++ GSMUserData :: post) buf = Done (f st)
  ∧ (∀ fuel i acc s err, GSMUserData_loop fuel i acc s ≠ ReturnErr err).
Proof.
  intros Hpre Hu HbU Hshort. split; [|apply GSMUserData_loop_no_error].
  destruct (Decode_loop_context pre buf st Hpre) as [(_ & _ & HU & _) _].
  specialize (HU bU HbU).
  destruct (GSMUserData_loop_exhausted (Z.to_nat (udhLength st))
              (udhLength st) [] st) as [st' Hloop]; [lia..|].
  apply (Decode_break pre post GSMUserData buf st st'); [done|].
  by rewrite Decode_field_GSMUserData, Hu, Hloop.
Qed.

Lemma ReadBytes_no_delim (delim : byte) (bs : list byte) :
  delim ∉ bs → ReadBytes delim bs = (bs, Some io_EOF, []).
Proof.
  induction bs as [|b bs IH]; [done|]. intros Hnot.
  apply not_elem_of_cons in Hnot as [Hb Hbs]. cbn.
  destruct (Byte.eqb b delim) eqn:E;
    [apply Byte.byte_dec_bl in E; congruence|].
  by rewrite IH.
Qed.

(** C2, as the code has it.  When the buffer ends where a one-octet field
    (or the UDH length octet that the UDHI flag announces) should start,
    or holds no [0x00] to end a C-string field, [Decode] stops at that
    field and returns the map of the fields parsed before it, with a nil
    error.  [Decode] returns no error on any schema and buffer. *)
Theorem Decode_truncated_frame (pre post : List) (k : Name)
    (buf : list byte) (st : state) :
  Decode_loop pre (init buf) = Value tt st →
  (name_in k Decode_fixed_names = true ∧ r st = [])
  ∨ (name_in k Decode_cstring_names = true ∧ x00 ∉ r st)
  ∨ (k = UDHLength ∧ udhiFlag st = true ∧ r st = []) →
  Decode (pre ++ k :: post) buf = Done (f st)
  ∧ (∀ l' buf' err, Decode l' buf' ≠ Failed err).
Proof.
  intros Hpre Htrunc. split; [|apply Decode_never_fails].
  assert (∃ st', Decode_field k st = BreakLoop st') as [st' Hk].
  { destruct Htrunc as [[Hk Hr]|[[Hk Hr]|(-> & Hu & Hr)]].
    - unfold Decode_field. destruct (name_in k Decode_cstring_names) eqn:Hc.
      + unfold mbind, M_bind, readBytes. rewrite Hr. cbn. eauto.
      + rewrite Hk. unfold mbind, M_bind, readByte. rewrite Hr. cbn. eauto.
    - unfold Decode_field. rewrite Hk. unfold mbind, M_bind, readBytes.
      rewrite ReadBytes_no_delim by done. cbn. eauto.
    - rewrite Decode_field_UDHLength, Hu, Hr. eauto. }
  by apply (Decode_break pre post k buf st st').
Qed.

End DecodeProperties.

(** * More of the code *)

(** ** [Len] and [Bytes] *)

Lemma Variable_Bytes_length (d : list byte) :
  (1 ≤ length (Variable_Bytes d))%nat.
Proof.
  unfold Variable_Bytes. destruct (last d) as [b|] eqn:E.
  - destruct d as [|b0 d']; [done|].
    destruct b; rewrite ?length_app; cbn [length]; lia.
  - rewrite length_app. cbn [length]. lia.
Qed.

Lemma UDH_Len_Bytes (ies : list UDHIE) :
  UDH_Len ies = Z.of_nat (length (UDH_Bytes ies)).
Proof.
  induction ies as [|ie ies IH]; [done|].
  cbn [UDH_Len UDH_Bytes]. rewrite length_app, IH.
  unfold UDHIE_Len, UDHIE_Bytes. cbn [length]. lia.
Qed.

Lemma DestSmeList_Len_fold (l : list DestSme) :
  ∀ ret, fold_left (λ ret ds, ret + DestSme_Len ds) l ret
         = ret + Z.of_nat (length (concat (map DestSme_Bytes l))).
Proof.
  induction l as [|ds l IH]; intros ret; cbn [fold_left map concat].
  - cbn. lia.
  - rewrite IH, length_app. unfold DestSme_Len, DestSme_Bytes, Fixed_Len,
      Variable_Len. rewrite !length_app. cbn [length]. lia.
Qed.

Lemma UnSmeList_Len_fold (l : list UnSme) :
  ∀ ret, fold_left (λ ret us, ret + UnSme_Len us) l ret
         = ret + Z.of_nat (length (concat (map UnSme_Bytes l))).
Proof.
  induction l as [|us l IH]; intros ret; cbn [fold_left map concat].
  - cbn. lia.
  - rewrite IH, length_app. unfold UnSme_Len, UnSme_Bytes, Fixed_Len,
      Variable_Len. rewrite !length_app. cbn [length]. lia.
Qed.

(** X1.  For every field value, [Len()] is the number of octets that
    [Bytes()] returns. *)
Theorem Body_Len_Bytes (b : Body) :
  Body_Len b = Z.of_nat (length (Bytes b)) ∧ Len b = Body_Len b.
Proof.
  destruct b as [d|d| |d|l|l|ies]; cbn [Body_Len Bytes Len]; try done.
  - unfold DestSmeList_Len. rewrite DestSmeList_Len_fold.
    split; cbn [Bytes]; lia.
  - unfold UnSmeList_Len. rewrite UnSmeList_Len_fold.
    split; cbn [Bytes]; lia.
  - split; [apply UDH_Len_Bytes|done].
Qed.

(** ** [Variable.String] and [Variable.Bytes] *)

Lemma Variable_Bytes_snoc (d : list byte) :
  Variable_Bytes d = Variable_String d ++ [x00].
Proof.
  unfold Variable_Bytes, Variable_String.
  destruct (last d) as [b|] eqn:E; [|done].
  destruct (Byte.byte_eq_dec b x00) as [->|Hb]; [|by destruct b].
  apply last_Some_snoc in E as [body ->].
  rewrite length_app. cbn [length].
  replace (length body + 1 - 1)%nat with (length body) by lia.
  by rewrite take_app_length.
Qed.

(** X2.  [Variable.Bytes()] is [Variable.String()] followed by one
    [0x00]; serializing twice changes nothing, and the string of the
    serialization is the string of the value. *)
Theorem Variable_Bytes_String (d : list byte) :
  Variable_Bytes d = Variable_String d ++ [x00]
  ∧ Variable_Bytes (Variable_Bytes d) = Variable_Bytes d
  ∧ Variable_String (Variable_Bytes d) = Variable_String d.
Proof.
  pose proof (Variable_Bytes_snoc d) as H1.
  assert (H2 : ∀ body, Variable_Bytes (body ++ [x00]) = body ++ [x00])
    by (by intros body; unfold Variable_Bytes; rewrite last_snoc).
  assert (H3 : ∀ body, Variable_String (body ++ [x00]) = body).
  { intros body. unfold Variable_String. rewrite last_snoc, length_app.
    cbn [length].
    replace (length body + 1 - 1)%nat with (length body) by lia.
    by rewrite take_app_length. }
  split; [done|]. rewrite H1. by rewrite H2, H3.
Qed.

(** ** [IsConcatenated] *)

Lemma BigEndian_Uint16_split (ref : Z) :
  0 ≤ ref < 65536 →
  BigEndian_Uint16 (byte_of_int (Z.shiftr ref 8)) (byte_of_int (Z.land ref 255))
  = ref.
Proof.
  intros Href. unfold BigEndian_Uint16.
  rewrite !int_of_byte_of_int, land_255, shiftr_8, Z.mod_mod by done.
  assert (0 ≤ ref / 256 < 256).
  { split; [apply Z.div_pos; lia|]. apply Z.div_lt_upper_bound; lia. }
  rewrite (Z.mod_small (ref / 256)) by lia.
  apply Z.bits_inj'. intros n Hn.
  rewrite Z.lor_spec, Z.shiftl_spec by done.
  change 256 with (2 ^ 8).
  destruct (Z.lt_ge_cases n 8) as [Hlow|Hhigh].
  - rewrite Z.mod_pow2_bits_low by lia.
    rewrite (Z.testbit_neg_r _ (n - 8)) by lia. apply orb_false_r.
  - rewrite Z.mod_pow2_bits_high by lia. cbn [orb].
    rewrite <- Z.shiftr_div_pow2, Z.shiftr_spec by lia. f_equal. lia.
Qed.

Lemma IsConcatenated_NewIE (ref total part : Z) :
  0 ≤ ref < 65536 → 0 ≤ total ≤ 255 → 0 ≤ part ≤ 255 →
  IsConcatenated [NewIEConcatenatedShortMessage ref total part]
  = Returns (true, ref, total, part).
Proof.
  intros Href Htotal Hpart.
  destruct (Z.le_gt_cases ref 255) as [H8|H16].
  - rewrite NewIE_8bit by done. cbn.
    rewrite land_255, !int_of_byte_of_int, Z.mod_mod by done.
    by rewrite !Z.mod_small by lia.
  - rewrite NewIE_16bit by done. cbn -[BigEndian_Uint16].
    rewrite BigEndian_Uint16_split by done.
    by rewrite !int_of_byte_of_small by lia.
Qed.

(** X3.  [IsConcatenated] reads back what
    [NewUDHConcatenatedShortMessage] was given: for a 16-bit [ref] and
    [total], [part] in [0, 255] it returns [(true, ref, total, part)]. *)
Theorem IsConcatenated_NewUDH (ref total part : Z) :
  0 ≤ ref < 65536 → 0 ≤ total ≤ 255 → 0 ≤ part ≤ 255 →
  IsConcatenated (NewUDHConcatenatedShortMessage ref total part)
  = Returns (true, ref, total, part).
Proof.
  intros Href Htotal Hpart. by apply IsConcatenated_NewIE.
Qed.

Lemma BigEndian_Uint16_value (b0 b1 : byte) :
  BigEndian_Uint16 b0 b1 = 256 * int_of_byte b0 + int_of_byte b1.
Proof.
  unfold BigEndian_Uint16.
  pose proof (int_of_byte_range b0) as H0.
  pose proof (int_of_byte_range b1) as H1.
  assert (Hland : Z.land (int_of_byte b1) (Z.shiftl (int_of_byte b0) 8) = 0).
  { apply Z.bits_inj'. intros n Hn.
    rewrite Z.land_spec, Z.bits_0, Z.shiftl_spec by done.
    destruct (Z.lt_ge_cases n 8) as [Hlow|Hhigh].
    - rewrite (Z.testbit_neg_r _ (n - 8)) by lia. apply andb_false_r.
    - rewrite <- (Z.mod_small (int_of_byte b1) (2 ^ 8)) by lia.
      by rewrite Z.mod_pow2_bits_high by lia. }
  rewrite <- Z.lxor_lor, <- Z.add_nocarry_lxor by done.
  rewrite Z.shiftl_mul_pow2 by done. lia.
Qed.

Lemma BigEndian_Uint16_range (b0 b1 : byte) :
  0 ≤ BigEndian_Uint16 b0 b1 < 65536.
Proof.
  rewrite BigEndian_Uint16_value.
  pose proof (int_of_byte_range b0). pose proof (int_of_byte_range b1). lia.
Qed.

Lemma IE_length_3 (ie : UDHIE) :
  udh.IE_well_formed ie → IELength ie = x03 →
  ∃ d0 d1 d2, IEData ie = [d0; d1; d2].
Proof.
  unfold udh.IE_well_formed. intros Hwf Hlen. rewrite Hlen in Hwf.
  destruct (IEData ie) as [|d0 [|d1 [|d2 [|d3 d]]]]; cbn in Hwf;
    try (vm_compute in Hwf; discriminate Hwf); [eauto|].
  change (int_of_byte x03) with 3 in Hwf. lia.
Qed.

Lemma IE_length_4 (ie : UDHIE) :
  udh.IE_well_formed ie → IELength ie = x04 →
  ∃ d0 d1 d2 d3, IEData ie = [d0; d1; d2; d3].
Proof.
  unfold udh.IE_well_formed. intros Hwf Hlen. rewrite Hlen in Hwf.
  destruct (IEData ie) as [|d0 [|d1 [|d2 [|d3 [|d4 d]]]]]; cbn in Hwf;
    try (vm_compute in Hwf; discriminate Hwf); [eauto|].
  change (int_of_byte x04) with 4 in Hwf. lia.
Qed.

Lemma IsConcatenated_returns (ies : list UDHIE) :
  Forall udh.IE_well_formed ies → ∃ res, IsConcatenated ies = Returns res.
Proof.
  induction 1 as [|ie ies Hwf _ IH]; [by eexists|].
  cbn [IsConcatenated].
  destruct (Byte.eqb (IEI ie) _ && Byte.eqb (IELength ie) x03) eqn:E8.
  { apply andb_true_iff in E8 as [_ E]. apply Byte.byte_dec_bl in E.
    destruct (IE_length_3 ie Hwf E) as (d0 & d1 & d2 & ->). by eexists. }
  destruct (Byte.eqb (IEI ie) _ && Byte.eqb (IELength ie) x04) eqn:E16; [|done].
  apply andb_true_iff in E16 as [_ E]. apply Byte.byte_dec_bl in E.
  destruct (IE_length_4 ie Hwf E) as (d0 & d1 & d2 & d3 & ->). by eexists.
Qed.

Lemma concat8_test (ie : UDHIE) :
  Byte.eqb (IEI ie) UDHIEIConcatenatedShortMessage8Bit
  && Byte.eqb (IELength ie) x03 = true ↔ udh.concat8 ie.
Proof.
  unfold udh.concat8. rewrite andb_true_iff. split.
  - intros [H1 H2]. split; by apply Byte.byte_dec_bl.
  - intros [H1 H2]. split; by apply Byte.byte_dec_lb.
Qed.

Lemma concat16_test (ie : UDHIE) :
  Byte.eqb (IEI ie) UDHIEIConcatenatedShortMessage16Bit
  && Byte.eqb (IELength ie) x04 = true ↔ udh.concat16 ie.
Proof.
  unfold udh.concat16. rewrite andb_true_iff. split.
  - intros [H1 H2]. split; by apply Byte.byte_dec_bl.
  - intros [H1 H2]. split; by apply Byte.byte_dec_lb.
Qed.

Lemma concat8_not_16 (ie : UDHIE) : udh.concat8 ie → udh.concat16 ie → False.
Proof. intros [H _] [H' _]. rewrite H in H'. discriminate H'. Qed.

(** X4.  On a UDH whose elements are well formed (IELength counts the
    data), [IsConcatenated] does not panic; [ref] is below [65536],
    [total] and [part] are octets.  When no element is a concatenation
    element (IEI [0x00] with IELength 3, or IEI [0x08] with IELength 4)
    the result is [(false, 0, 1, 1)]; otherwise it is [true] with the
    reference, total and part of the first such element: its three data
    octets, or the big-endian reference of the first two and the other
    two of its four. *)
Theorem IsConcatenated_well_formed (ies : list UDHIE) :
  Forall udh.IE_well_formed ies →
  ∃ concatenated ref total part,
    IsConcatenated ies = Returns (concatenated, ref, total, part)
    ∧ 0 ≤ ref < 65536 ∧ 0 ≤ total ≤ 255 ∧ 0 ≤ part ≤ 255
    ∧ (concatenated = false → ref = 0 ∧ total = 1 ∧ part = 1)
    ∧ (Forall (λ ie, ¬ udh.concat8 ie ∧ ¬ udh.concat16 ie) ies →
       concatenated = false)
    ∧ (∀ pre ie post,
         ies = pre ++ ie :: post →
         Forall (λ ie, ¬ udh.concat8 ie ∧ ¬ udh.concat16 ie) pre →
         (udh.concat8 ie →
          ∃ d0 d1 d2,
            IEData ie = [d0; d1; d2]
            ∧ (concatenated, ref, total, part)
              = (true, int_of_byte d0, int_of_byte d1, int_of_byte d2))
         ∧ (udh.concat16 ie →
            ∃ d0 d1 d2 d3,
              IEData ie = [d0; d1; d2; d3]
              ∧ (concatenated, ref, total, part)
                = (true, BigEndian_Uint16 d0 d1, int_of_byte d2,
                   int_of_byte d3))).
Proof.
  induction 1 as [|ie ies Hwf _ IH].
  { exists false, 0, 1, 1. cbn. repeat split; try lia.
    all: by destruct pre. }
  cbn [IsConcatenated].
  destruct (Byte.eqb (IEI ie) _ && Byte.eqb (IELength ie) x03) eqn:E8.
  { apply concat8_test in E8. pose proof E8 as [_ E].
    destruct (IE_length_3 ie Hwf E) as (d0 & d1 & d2 & Hdata). rewrite Hdata.
    pose proof (int_of_byte_range d0). pose proof (int_of_byte_range d1).
    pose proof (int_of_byte_range d2).
    eexists _, _, _, _. split; [done|].
    split; [lia|]. split; [lia|]. split; [lia|]. split; [done|]. split.
    - intros Hnone. apply Forall_cons in Hnone as [[Hn _] _]. by destruct Hn.
    - intros pre ie' post Hsplit Hpre.
      destruct pre as [|p pre]; cbn in Hsplit; injection Hsplit as <- _.
      + split; [intros _; by exists d0, d1, d2|].
        intros H16. by destruct (concat8_not_16 ie).
      + apply Forall_cons in Hpre as [[Hn _] _]. by destruct Hn. }
  destruct (Byte.eqb (IEI ie) _ && Byte.eqb (IELength ie) x04) eqn:E16.
  { apply concat16_test in E16. pose proof E16 as [_ E].
    destruct (IE_length_4 ie Hwf E) as (d0 & d1 & d2 & d3 & Hdata).
    rewrite Hdata.
    pose proof (BigEndian_Uint16_range d0 d1).
    pose proof (int_of_byte_range d2). pose proof (int_of_byte_range d3).
    eexists _, _, _, _. split; [done|].
    split; [lia|]. split; [lia|]. split; [lia|]. split; [done|]. split.
    - intros Hnone. apply Forall_cons in Hnone as [[_ Hn] _]. by destruct Hn.
    - intros pre ie' post Hsplit Hpre.
      destruct pre as [|p pre]; cbn in Hsplit; injection Hsplit as <- _.
      + split; [|intros _; by exists d0, d1, d2, d3].
        intros H8. by destruct (concat8_not_16 ie).
      + apply Forall_cons in Hpre as [[_ Hn] _]. by destruct Hn. }
  assert (Hn8 : ¬ udh.concat8 ie)
    by (intros H8; apply concat8_test in H8; congruence).
  assert (Hn16 : ¬ udh.concat16 ie)
    by (intros H16; apply concat16_test in H16; congruence).
  destruct IH as (c & x & y & z & Hres & Hx & Hy & Hz & Hfalse & Hnone & Hfirst).
  exists c, x, y, z. split; [done|].
  split; [done|]. split; [done|]. split; [done|]. split; [done|]. split.
  - intros Hall. apply Forall_cons in Hall as [_ Hall]. by apply Hnone.
  - intros pre ie' post Hsplit Hpre.
    destruct pre as [|p pre]; cbn in Hsplit.
    + injection Hsplit as <- _. split; intros H; [by destruct Hn8|by destruct Hn16].
    + injection Hsplit as <- ->. apply Forall_cons in Hpre as [_ Hpre].
      by apply (Hfirst pre ie' post).
Qed.

(** An element that announces 3 (or 4) data octets and holds fewer makes
    [IsConcatenated] panic. *)
Lemma IsConcatenated_short_data (ie : UDHIE) (ies : list UDHIE) :
  (IEI ie = x00 ∧ IELength ie = x03 ∧ (length (IEData ie) < 3)%nat)
  ∨ (IEI ie = x08 ∧ IELength ie = x04 ∧ (length (IEData ie) < 4)%nat) →
  IsConcatenated (ie :: ies) = Panics.
Proof.
  intros [(H1 & H2 & H3)|(H1 & H2 & H3)]; cbn [IsConcatenated];
    rewrite H1, H2; cbn;
    destruct (IEData ie) as [|d0 [|d1 [|d2 [|d3 d]]]]; cbn in H3;
    (done || lia).
Qed.

(** ** [New]: what it returns *)

Lemma New_loop_past_end (fuel : nat) (data spare : list byte) (i : nat)
    (acc : list UDHIE) :
  (length data ≤ i)%nat →
  New_GSMUserData_loop fuel data spare i acc = Returns acc.
Proof.
  intros Hi. destruct fuel as [|fuel]; [done|]. cbn [New_GSMUserData_loop].
  by replace (i <? length data)%nat with false
    by (symmetry; apply Nat.ltb_ge; lia).
Qed.

(** Whatever the spare capacity, what the loop returns are the elements
    of records that lie in the backing array: all of [data] from [i] on,
    then the octets [used] of the spare capacity that the last record
    reaches into. *)
Lemma New_loop_returns_spare (fuel : nat) :
  ∀ suf pre spare acc res,
    (length suf ≤ fuel)%nat →
    New_GSMUserData_loop fuel (pre ++ suf) spare (length pre) acc = Returns res →
    ∃ ies used tail,
      spare = used ++ tail ∧ udh.records (suf ++ used) ies ∧ res = acc ++ ies.
Proof.
  induction fuel as [|fuel IH]; intros suf pre spare acc res Hfuel Hloop.
  - destruct suf; [|cbn in Hfuel; lia]. cbn in Hloop. injection Hloop as <-.
    exists [], [], spare. split; [done|]. split; [constructor|by rewrite app_nil_r].
  - cbn [New_GSMUserData_loop] in Hloop.
    destruct suf as [|iei suf].
    { rewrite app_nil_r, Nat.ltb_irrefl in Hloop. injection Hloop as <-.
      exists [], [], spare. split; [done|].
      split; [constructor|by rewrite app_nil_r]. }
    replace (length pre <? length (pre ++ iei :: suf))%nat with true in Hloop
      by (symmetry; apply Nat.ltb_lt; rewrite length_app; cbn; lia).
    rewrite (lookup_app_r pre) in Hloop by lia.
    replace (length pre + 1 - length pre)%nat with 1%nat in Hloop by lia.
    rewrite (lookup_app_r pre) in Hloop by lia.
    rewrite Nat.sub_diag in Hloop. cbn [lookup list_lookup] in Hloop.
    destruct suf as [|lb suf]; [done|]. cbn [lookup list_lookup] in Hloop.
    pose proof (int_of_byte_range lb) as Hlb.
    set (n := Z.to_nat (int_of_byte lb)) in *.
    destruct (Nat.leb_spec (length pre + 2 + n)
                (length (pre ++ iei :: lb :: suf) + length spare))
      as [Hfit|]; [|done].
    rewrite length_app in Hfit. cbn in Hfit.
    assert (Hdata : take n (drop (length pre + 2)
                             ((pre ++ iei :: lb :: suf) ++ spare))
                    = take n (suf ++ spare)).
    { replace ((pre ++ iei :: lb :: suf) ++ spare)
        with ((pre ++ [iei; lb]) ++ suf ++ spare) by same_app.
      rewrite drop_app_length'; [done|]. rewrite length_app. cbn. lia. }
    rewrite Hdata in Hloop.
    destruct (Nat.le_gt_cases n (length suf)) as [Hin|Hout].
    + (* the record lies inside [data] *)
      rewrite take_app_le in Hloop by done.
      replace (pre ++ iei :: lb :: suf)
        with ((pre ++ iei :: lb :: take n suf) ++ drop n suf) in Hloop
        by (rewrite <- (take_drop n suf) at 3; same_app).
      replace (length pre + 2 + n)%nat
        with (length (pre ++ iei :: lb :: take n suf)) in Hloop
        by (rewrite length_app; cbn; rewrite length_take; lia).
      apply IH in Hloop as (ies & used & tail & -> & Hrec & ->);
        [|cbn in Hfuel; rewrite length_drop; lia].
      eexists _, used, tail. split; [done|]. split.
      * rewrite <- (take_drop n suf) at 1.
        replace ((iei :: lb :: take n suf ++ drop n suf) ++ used)
          with (iei :: lb :: take n suf ++ (drop n suf ++ used)) by same_app.
        apply udh.records_cons; [|exact Hrec].
        rewrite length_take. lia.
      * by rewrite <- app_assoc.
    + (* the record reaches into the spare capacity *)
      rewrite New_loop_past_end in Hloop
        by (rewrite length_app; cbn; lia).
      rewrite take_app_ge in Hloop by lia. injection Hloop as <-.
      exists [{| IEI := iei; IELength := lb;
                 IEData := suf ++ take (n - length suf) spare |}],
        (take (n - length suf) spare), (drop (n - length suf) spare).
      split; [by rewrite take_drop|]. split; [|done].
      replace ((iei :: lb :: suf) ++ take (n - length suf) spare)
        with (iei :: lb :: (suf ++ take (n - length suf) spare) ++ [])
        by (rewrite app_nil_r; same_app).
      apply udh.records_cons; [|constructor].
      rewrite length_app, length_take. lia.
Qed.

(** X5.  Whatever the slice and its capacity, a UDH that
    [New(GSMUserData, data)] returns holds well-formed elements only; its
    serialization is [data] followed by the octets of the spare capacity
    that the last record reached into (none when the records fit); and
    [IsConcatenated] does not panic on it. *)
Theorem New_GSMUserData_well_formed (data : slice) (ies : list UDHIE) :
  New GSMUserData data = Returns (Some (UDH ies)) →
  Forall udh.IE_well_formed ies
  ∧ (∃ used tail,
       slice_spare data = used ++ tail
       ∧ Bytes (UDH ies) = slice_elems data ++ used)
  ∧ (∃ res, IsConcatenated ies = Returns res).
Proof.
  intros Hnew. rewrite New_GSMUserData in Hnew.
  destruct (2 <? length (slice_elems data))%nat; [|done].
  destruct (New_GSMUserData_loop _ _ _ _ _) as [res|] eqn:Hloop; [|done].
  injection Hnew as ->.
  apply (New_loop_returns_spare _ (slice_elems data) [] _ [] ies
           (Nat.le_refl _)) in Hloop as (ies' & used & tail & Hs & Hrec & ->).
  apply records_inv in Hrec as [Hbytes Hwf]. cbn [app].
  split; [done|]. split; [by exists used, tail|].
  apply (IsConcatenated_returns ies' Hwf).
Qed.

(** ** [List.Decode]: round trips *)

Lemma with_r_self (st : state) (bs : list byte) : r st = bs → with_r bs st = st.
Proof. intros <-. by destruct st. Qed.

Lemma ReadBytes_cstring (body rest : list byte) :
  x00 ∉ body →
  ReadBytes x00 (body ++ x00 :: rest) = (body ++ [x00], None, rest).
Proof.
  induction body as [|b body IH]; intros Hnot; [done|].
  apply not_elem_of_cons in Hnot as [Hb Hbody]. cbn.
  destruct (Byte.eqb b x00) eqn:E;
    [apply Byte.byte_dec_bl in E; congruence|].
  by rewrite IH.
Qed.

Lemma ReadBytes_found (delim : byte) (bs : list byte) :
  ∀ line rest,
    ReadBytes delim bs = (line, None, rest) →
    bs = line ++ rest ∧ ∃ body, line = body ++ [delim] ∧ delim ∉ body.
Proof.
  induction bs as [|b bs IH]; intros line rest H; [done|]. cbn in H.
  destruct (Byte.eqb b delim) eqn:E.
  - apply Byte.byte_dec_bl in E as ->. injection H as <- <-.
    split; [done|]. exists []. split; [done|]. apply not_elem_of_nil.
  - destruct (ReadBytes delim bs) as [[line' err'] rest'].
    injection H as <- -> <-.
    destruct (IH line' rest' eq_refl) as (-> & body & -> & Hbody).
    split; [done|]. exists (b :: body). split; [done|].
    apply not_elem_of_cons. split; [|done].
    intros ->. by rewrite (Byte.byte_dec_lb eq_refl) in E.
Qed.

(** The loop of [gsm_sms_ud.udh] on records that fit: it returns their
    elements and leaves what follows them. *)
Lemma GSMUserData_loop_records (suf : list byte) (ies : list UDHIE) :
  udh.records suf ies →
  ∀ fuel acc st rest,
    r st = suf ++ rest →
    (length suf ≤ fuel)%nat →
    GSMUserData_loop fuel (Z.of_nat (length suf)) acc st
    = Value (acc ++ ies) (with_r rest st).
Proof.
  induction 1 as [|iei lb d rest' ies Hlen _ IH]; intros fuel acc st rest Hr Hfuel.
  - rewrite app_nil_r, with_r_self by done.
    destruct fuel as [|fuel]; [done|]. by cbn.
  - destruct fuel as [|fuel]; [cbn in Hfuel; lia|].
    cbn [GSMUserData_loop].
    replace (0 <? Z.of_nat (length (iei :: lb :: d ++ rest'))) with true
      by (symmetry; apply Z.ltb_lt; rewrite length_cons; lia).
    unfold mbind, M_bind, readByte. rewrite Hr. cbn [app ReadByte after_read r with_r].
    unfold next, Next. cbn [r with_r].
    replace (int_of_byte lb <? 0) with false
      by (pose proof (int_of_byte_range lb); lia).
    rewrite <- Hlen, Nat2Z.id.
    replace ((d ++ rest') ++ rest) with (d ++ rest' ++ rest) by same_app.
    rewrite take_app_length, drop_app_length, Z.eqb_refl. cbn [negb].
    replace (Z.of_nat (length (iei :: lb :: d ++ rest')) - (Z.of_nat (length d) + 2))
      with (Z.of_nat (length rest'))
      by (cbn [length]; rewrite length_app; lia).
    rewrite (IH fuel _ _ rest); [by rewrite <- app_assoc|done|].
    cbn in Hfuel. rewrite length_app in Hfuel. lia.
Qed.

(** What the loop returns, on any input: well-formed elements, whose
    records are the octets it took, [i] of them at least. *)
Lemma GSMUserData_loop_Value (fuel : nat) :
  ∀ i acc st res st',
    GSMUserData_loop fuel i acc st = Value res st' →
    ∃ new,
      res = acc ++ new ∧ Forall udh.IE_well_formed new
      ∧ r st = UDH_Bytes new ++ r st'
      ∧ (i ≤ Z.of_nat fuel → i ≤ UDH_Len new).
Proof.
  induction fuel as [|fuel IH]; intros i acc st res st' Hloop.
  - injection Hloop as <- <-. exists []. rewrite app_nil_r.
    repeat split; (done || cbn; lia).
  - cbn [GSMUserData_loop] in Hloop.
    destruct (Z.ltb_spec 0 i) as [Hi|Hi].
    2:{ injection Hloop as <- <-. exists []. rewrite app_nil_r.
        repeat split; (done || cbn; lia). }
    unfold mbind, M_bind, readByte in Hloop.
    destruct (r st) as [|iei r1] eqn:Hr; [done|].
    cbn [ReadByte after_read r with_r] in Hloop.
    destruct r1 as [|lb r2]; [done|].
    cbn [ReadByte after_read r with_r] in Hloop.
    pose proof (int_of_byte_range lb) as Hlb.
    unfold next, Next in Hloop. cbn [r with_r] in Hloop.
    replace (int_of_byte lb <? 0) with false in Hloop by lia.
    set (n := Z.to_nat (int_of_byte lb)) in *.
    destruct (Z.eqb_spec (Z.of_nat (length (take n r2))) (int_of_byte lb))
      as [Hbt|Hbt]; cbn [negb] in Hloop; [|done].
    apply IH in Hloop as (new & -> & Hwf & Hrest & Hlen).
    cbn [r with_r] in Hrest.
    exists ({| IEI := iei; IELength := lb; IEData := take n r2 |} :: new).
    split; [by rewrite <- app_assoc|]. split; [by constructor|]. split.
    + cbn [UDH_Bytes UDHIE_Bytes IEI IELength IEData].
      rewrite <- (take_drop n r2) at 1. rewrite Hrest. same_app.
    + intros Hfuel. cbn [UDH_Len]. unfold UDHIE_Len. cbn [IEData]. lia.
Qed.

Section DecodeRoundTrips.
Context `{codecs : pdutext.Codecs}.

(** X6.  With the UDHI flag set and [udhLength] the length of a
    well-formed UDH, the [gsm_sms_ud.udh] case decodes the serialization
    of that UDH into the same UDH and leaves in the buffer what follows
    it. *)
Theorem GSMUserData_round_trip (st : state) (ies : list UDHIE)
    (rest : list byte) :
  udhiFlag st = true →
  Forall udh.IE_well_formed ies →
  udhLength st = Body_Len (UDH ies) →
  r st = Bytes (UDH ies) ++ rest →
  Decode_field GSMUserData st
  = Value tt (with_f (<[GSMUserData := UDH ies]> (f st)) (with_r rest st)).
Proof.
  intros Hu Hwf HU Hr. cbn [Body_Len Bytes] in HU, Hr.
  rewrite Decode_field_GSMUserData, Hu, HU, UDH_Len_Bytes, Nat2Z.id.
  by rewrite (GSMUserData_loop_records _ ies (records_UDH_Bytes ies Hwf)
                _ [] st rest Hr (Nat.le_refl _)).
Qed.

(** X7.  On any input, a UDH that the [gsm_sms_ud.udh] case stores holds
    well-formed elements only; its serialization is exactly the octets
    taken from the buffer, at least [udhLength] of them (the last record
    may reach past the declared length); and [IsConcatenated] does not
    panic on it. *)
Theorem GSMUserData_stored (st st' : state) :
  udhiFlag st = true →
  Decode_field GSMUserData st = Value tt st' →
  ∃ ies,
    f st' = <[GSMUserData := UDH ies]> (f st)
    ∧ Forall udh.IE_well_formed ies
    ∧ r st = Bytes (UDH ies) ++ r st'
    ∧ udhLength st ≤ Body_Len (UDH ies)
    ∧ (∃ res, IsConcatenated ies = Returns res).
Proof.
  intros Hu Hfield. rewrite Decode_field_GSMUserData, Hu in Hfield.
  destruct (GSMUserData_loop _ _ _ st) as [ies st1|st1|err|] eqn:Hloop;
    try done.
  injection Hfield as <-.
  pose proof (only_r_GSMUserData_loop (Z.to_nat (udhLength st))
                (udhLength st) [] st) as Hst1. rewrite Hloop in Hst1.
  apply GSMUserData_loop_Value in Hloop as (new & -> & Hwf & Hr & Hlen).
  exists new. cbn [app f r with_f Bytes Body_Len].
  split; [by rewrite Hst1|]. split; [done|]. split; [done|].
  split; [destruct (Z.le_gt_cases (udhLength st) 0); [|lia]|].
  - pose proof (UDH_Len_Bytes new). lia.
  - apply (IsConcatenated_returns new Hwf).
Qed.

End DecodeRoundTrips.

(** ** [List.Decode]: C strings, lists and whole parts *)

Lemma fixed_not_cstring (k : Name) :
  name_in k Decode_fixed_names = true → name_in k Decode_cstring_names = false.
Proof.
  unfold name_in at 1. intros H. apply existsb_exists in H as (q & Hq & Heq).
  apply String.eqb_eq in Heq as ->. cbn in Hq.
  repeat (destruct Hq as [<-|Hq]; [by vm_compute|]). done.
Qed.

Lemma readByte_cons (st : state) (b : byte) (bs : list byte) :
  r st = b :: bs → readByte st = Value b (with_r bs st).
Proof. intros Hr. unfold readByte. by rewrite Hr. Qed.

Lemma readBytes_cstring (st : state) (body rest : list byte) :
  r st = body ++ x00 :: rest → x00 ∉ body →
  readBytes x00 st = Value (body ++ [x00]) (with_r rest st).
Proof.
  intros Hr Hbody. unfold readBytes. by rewrite Hr, ReadBytes_cstring.
Qed.

Lemma next_app (st : state) (d rest : list byte) (n : Z) :
  r st = d ++ rest → n = Z.of_nat (length d) →
  next n st = Value d (with_r rest st).
Proof.
  intros Hr ->. unfold next, Next. rewrite Hr.
  destruct (Z.ltb_spec (Z.of_nat (length d)) 0); [lia|].
  by rewrite Nat2Z.id, take_app_length, drop_app_length.
Qed.

Lemma DestinationList_loop_records (l : list DestSme) :
  Forall (λ ds, fieldmap.cstring (DestAddr ds)) l →
  ∀ acc st rest,
    r st = concat (map fieldmap.DestSme_wire l) ++ rest →
    DestinationList_loop (length l) acc st = Value (acc ++ l) (with_r rest st).
Proof.
  induction 1 as [|[flag ton npi addr] l (body & Haddr & Hbody) _ IH];
    intros acc st rest Hr.
  - cbn in *. by rewrite app_nil_r, with_r_self.
  - cbn [length DestinationList_loop]. cbn in Haddr. subst addr.
    cbn [map concat] in Hr. unfold fieldmap.DestSme_wire at 1 in Hr.
    cbn [Flag Ton Npi DestAddr] in Hr.
    replace ((flag :: ton :: npi :: body ++ [x00])
             ++ concat (map fieldmap.DestSme_wire l))
      with (flag :: ton :: npi :: body ++ x00
            :: concat (map fieldmap.DestSme_wire l)) in Hr by same_app.
    cbn [app] in Hr. rewrite <- app_assoc in Hr. cbn [app] in Hr.
    unfold mbind, M_bind.
    rewrite (readByte_cons _ _ _ Hr).
    erewrite readByte_cons by reflexivity.
    erewrite readByte_cons by reflexivity.
    erewrite readBytes_cstring by (reflexivity || done).
    rewrite (IH _ _ rest) by done. by rewrite <- app_assoc.
Qed.

Lemma UnsuccessSme_loop_records (l : list UnSme) :
  Forall (λ us, fieldmap.cstring (UnDestAddr us) ∧ length (ErrCode us) = 4%nat) l →
  ∀ acc st rest,
    r st = concat (map fieldmap.UnSme_wire l) ++ rest →
    UnsuccessSme_loop (length l) acc st = Value (acc ++ l) (with_r rest st).
Proof.
  induction 1 as [|[ton npi addr ec] l [(body & Haddr & Hbody) Hec] _ IH];
    intros acc st rest Hr.
  - cbn in *. by rewrite app_nil_r, with_r_self.
  - cbn [length UnsuccessSme_loop]. cbn in Haddr, Hec. subst addr.
    cbn [map concat] in Hr. unfold fieldmap.UnSme_wire at 1 in Hr.
    cbn [UnTon UnNpi UnDestAddr ErrCode] in Hr.
    replace (((ton :: npi :: (body ++ [x00]) ++ ec)
              ++ concat (map fieldmap.UnSme_wire l)) ++ rest)
      with (ton :: npi :: body ++ x00
            :: ec ++ concat (map fieldmap.UnSme_wire l) ++ rest) in Hr
      by same_app.
    unfold mbind, M_bind.
    rewrite (readByte_cons _ _ _ Hr).
    erewrite readByte_cons by reflexivity.
    erewrite readBytes_cstring by (reflexivity || done).
    erewrite next_app by (reflexivity || (by rewrite Hec)).
    rewrite (IH _ _ rest) by done. by rewrite <- app_assoc.
Qed.

Lemma cstring_Bytes (d : list byte) :
  fieldmap.cstring d → Variable_Bytes d = d.
Proof.
  intros (body & -> & _). unfold Variable_Bytes. by rewrite last_snoc.
Qed.

Lemma DestSme_wire_Bytes (l : list DestSme) :
  Forall (λ ds, fieldmap.cstring (DestAddr ds)) l →
  concat (map fieldmap.DestSme_wire l) = Bytes (DestSmeList l).
Proof.
  cbn [Bytes]. induction 1 as [|ds l Hds _ IH]; [done|].
  cbn [map concat]. rewrite IH. f_equal.
  unfold fieldmap.DestSme_wire, DestSme_Bytes. by rewrite cstring_Bytes.
Qed.

Section DecodeRoundTrips2.
Context `{codecs : pdutext.Codecs}.

Lemma Decode_field_cstring (k : Name) (st : state) :
  name_in k Decode_cstring_names = true →
  Decode_field k st = (b ← readBytes x00; setField k (Variable' b)) st.
Proof. intros H. unfold Decode_field. by rewrite H. Qed.

Lemma Decode_field_fixed (k : Name) (st : state) :
  name_in k Decode_fixed_names = true →
  Decode_field k st
  = (b ← readByte; setField k (Fixed b);; remember k b) st.
Proof.
  intros H. unfold Decode_field. by rewrite (fixed_not_cstring k H), H.
Qed.

(** X8.  A C-string field decodes the serialization of a [Variable]
    whose string holds no [0x00]: it stores the [Variable] of those same
    octets (terminator included) and leaves in the buffer what follows
    them. *)
Theorem cstring_round_trip (k : Name) (st : state) (d rest : list byte) :
  name_in k Decode_cstring_names = true →
  x00 ∉ Variable_String d →
  r st = Bytes (Variable' d) ++ rest →
  Decode_field k st
  = Value tt (with_f (<[k := Variable' (Bytes (Variable' d))]> (f st))
                (with_r rest st)).
Proof.
  intros Hk Hd Hr. rewrite Decode_field_cstring by done.
  cbn [Bytes] in *. pose proof (Variable_Bytes_snoc d) as Hb.
  rewrite Hb in Hr |- *.
  unfold mbind, M_bind, readBytes. rewrite Hr.
  replace ((Variable_String d ++ [x00]) ++ rest)
    with (Variable_String d ++ x00 :: rest) by same_app.
  by rewrite ReadBytes_cstring.
Qed.

(** X9.  With [numDest] the number of entries, [dest_addresses] decodes
    the serialization of a [DestSmeList] whose addresses are C strings
    into the same list, and leaves in the buffer what follows it. *)
Theorem DestinationList_round_trip (st : state) (l : list DestSme)
    (rest : list byte) :
  Forall (λ ds, fieldmap.cstring (DestAddr ds)) l →
  numDest st = Z.of_nat (length l) →
  r st = Bytes (DestSmeList l) ++ rest →
  Decode_field DestinationList st
  = Value tt (with_f (<[DestinationList := DestSmeList l]> (f st))
                (with_r rest st)).
Proof.
  intros Hl Hn Hr. rewrite <- DestSme_wire_Bytes in Hr by done.
  unfold Decode_field.
  change (name_in DestinationList Decode_cstring_names) with false.
  change (name_in DestinationList Decode_fixed_names) with false.
  cbn -[DestinationList_loop]. unfold mbind, M_bind, get.
  rewrite Hn, Nat2Z.id.
  by rewrite (DestinationList_loop_records l Hl [] st rest Hr).
Qed.


Lemma Decode_field_SMLength (st : state) (b : byte) (rest : list byte) :
  r st = b :: rest →
  Decode_field SMLength st
  = Value tt (with_smLength (int_of_byte b)
                (with_f (<[SMLength := Fixed b]> (f st)) (with_r rest st))).
Proof.
  intros Hr. rewrite Decode_field_fixed by done.
  unfold mbind, M_bind. by rewrite (readByte_cons _ _ _ Hr).
Qed.

Lemma Decode_loop_part (st : state) (bN bU : byte) (ies : list UDHIE)
    (payload rest : list byte) :
  udhiFlag st = true →
  Forall udh.IE_well_formed ies →
  int_of_byte bU = UDH_Len ies →
  int_of_byte bN = Z.of_nat (length payload) + UDH_Len ies + 1 →
  r st = bN :: bU :: UDH_Bytes ies ++ payload ++ rest →
  ∃ st',
    Decode_loop [SMLength; UDHLength; GSMUserData; ShortMessage] st
    = Value tt st'
    ∧ r st' = rest
    ∧ f st' = <[ShortMessage := SM (decode_text (dataCoding st) payload)]>
                (<[GSMUserData := UDH ies]>
                   (<[UDHLength := Fixed bU]>
                      (<[SMLength := Fixed bN]> (f st)))).
Proof.
  intros Hu Hwf HU HN Hr.
  rewrite Decode_loop_cons, (Decode_field_SMLength _ _ _ Hr).
  rewrite Decode_loop_cons, Decode_field_UDHLength.
  cbn [udhiFlag with_smLength with_f with_r r f]. rewrite Hu.
  rewrite Decode_loop_cons.
  rewrite Decode_field_GSMUserData.
  cbn [udhiFlag udhLength with_f with_r with_smLength with_udhLength r f].
  rewrite Hu, HU, UDH_Len_Bytes, Nat2Z.id.
  rewrite (GSMUserData_loop_records _ ies (records_UDH_Bytes ies Hwf)
             _ [] _ (payload ++ rest)) by done.
  cbn [app].
  rewrite Decode_loop_cons, Decode_field_ShortMessage.
  cbn [udhiFlag udhLength smLength dataCoding r f with_smLength with_f
       with_r with_udhLength]. rewrite Hu. cbn zeta.
  cbn [udhiFlag udhLength smLength dataCoding r f with_smLength with_f
       with_r with_udhLength].
  rewrite <- !UDH_Len_Bytes.
  replace (int_of_byte bN - (UDH_Len ies + 1))
    with (Z.of_nat (length payload)) by lia.
  unfold Next. destruct (Z.ltb_spec (Z.of_nat (length payload)) 0); [lia|].
  rewrite Nat2Z.id, take_app_length, drop_app_length.
  eexists. split; [reflexivity|]. by split.
Qed.

(** X10.  A part of a concatenated message decodes to what was
    serialized.  With the UDHI flag set, on the octets of [sm_length],
    [gsm_sms_ud.udh.len], a well-formed UDH and the payload, where the
    UDH length octet is [udh.Len()] and [sm_length] is
    [payload.Len() + udh.Len() + 1], the fields [sm_length],
    [gsm_sms_ud.udh.len], [gsm_sms_ud.udh], [short_message] are stored as
    those values (the payload through [decode_text]) and the buffer is
    left at what follows the payload. *)
Theorem concatenated_part_round_trip (st : state) (bN bU : byte)
    (ies : list UDHIE) (payload rest : list byte) :
  udhiFlag st = true →
  Forall udh.IE_well_formed ies →
  int_of_byte bU = Body_Len (UDH ies) →
  int_of_byte bN = Body_Len (SM payload) + Body_Len (UDH ies) + 1 →
  r st = Bytes (Fixed bN) ++ Bytes (Fixed bU) ++ Bytes (UDH ies)
         ++ Bytes (SM payload) ++ rest →
  ∃ st',
    Decode_loop [SMLength; UDHLength; GSMUserData; ShortMessage] st
    = Value tt st'
    ∧ r st' = rest
    ∧ f st' = <[ShortMessage := SM (decode_text (dataCoding st) payload)]>
                (<[GSMUserData := UDH ies]>
                   (<[UDHLength := Fixed bU]>
                      (<[SMLength := Fixed bN]> (f st)))).
Proof.
  intros Hu Hwf HU HN Hr.
  by apply (Decode_loop_part st bN bU ies payload rest).
Qed.

Lemma UnSme_Bytes_wire (us : UnSme) :
  fieldmap.cstring (UnDestAddr us) →
  UnSme_Bytes us
  = fieldmap.UnSme_wire us
    ++ match last (ErrCode us) with Some x00 => [] | _ => [x00] end.
Proof.
  intros Haddr. unfold UnSme_Bytes, fieldmap.UnSme_wire.
  rewrite (cstring_Bytes _ Haddr). cbn [app]. do 2 f_equal.
  rewrite <- app_assoc. f_equal. unfold Variable_Bytes.
  destruct (last (ErrCode us)) as [b|]; [|done].
  destruct b; by rewrite ?app_nil_r.
Qed.

Lemma UnSmeList_Bytes_wire (l : list UnSme) :
  Forall (λ us, fieldmap.cstring (UnDestAddr us)) l →
  (length (concat (map fieldmap.UnSme_wire l))
   ≤ length (concat (map UnSme_Bytes l)))%nat
  ∧ (concat (map UnSme_Bytes l) = concat (map fieldmap.UnSme_wire l)
     ↔ Forall (λ us, last (ErrCode us) = Some x00) l).
Proof.
  induction 1 as [|us l Hus _ [IHlen IH]]; [by split|].
  cbn [map concat]. rewrite !length_app.
  pose proof (UnSme_Bytes_wire us Hus) as Hb.
  assert (Hlen : (length (fieldmap.UnSme_wire us) ≤ length (UnSme_Bytes us))%nat)
    by (rewrite Hb, length_app; lia).
  split; [lia|]. split.
  - intros Heq.
    assert (Hl : length (UnSme_Bytes us) = length (fieldmap.UnSme_wire us)).
    { apply (f_equal length) in Heq. rewrite !length_app in Heq. lia. }
    apply app_inj_1 in Heq as [Hhead Htail]; [|done].
    constructor; [|by apply IH].
    rewrite Hb in Hl. rewrite length_app in Hl.
    destruct (last (ErrCode us)) as [b|]; [|cbn in Hl; lia].
    destruct b; (done || (cbn in Hl; lia)).
  - intros Hall. apply Forall_cons in Hall as [Hlast Hall].
    f_equal; [|by apply IH]. rewrite Hb, Hlast. apply app_nil_r.
Qed.

(** X11.  With [unsuccessCount] the number of entries, [unsuccess_sme]
    decodes the records (TON, NPI, C-string address, 4-octet error code)
    into the list of those entries.  These records are the [Bytes()] of
    that list exactly when every error code ends in [0x00]: [UnSme.Bytes]
    serializes the error code as a [Variable], which appends a [0x00] to
    any other. *)
Theorem UnsuccessSme_round_trip (st : state) (l : list UnSme)
    (rest : list byte) :
  Forall (λ us, fieldmap.cstring (UnDestAddr us)
                ∧ length (ErrCode us) = 4%nat) l →
  unsuccessCount st = Z.of_nat (length l) →
  r st = concat (map fieldmap.UnSme_wire l) ++ rest →
  Decode_field UnsuccessSme st
  = Value tt (with_f (<[UnsuccessSme := UnSmeList l]> (f st)) (with_r rest st))
  ∧ (Bytes (UnSmeList l) = concat (map fieldmap.UnSme_wire l)
     ↔ Forall (λ us, last (ErrCode us) = Some x00) l).
Proof.
  intros Hl Hn Hr. split.
  - unfold Decode_field.
    change (name_in UnsuccessSme Decode_cstring_names) with false.
    change (name_in UnsuccessSme Decode_fixed_names) with false.
    cbn -[UnsuccessSme_loop]. unfold mbind, M_bind, get.
    rewrite Hn, Nat2Z.id.
    by rewrite (UnsuccessSme_loop_records l Hl [] st rest Hr).
  - cbn [Bytes]. apply UnSmeList_Bytes_wire.
    eapply Forall_impl; [exact Hl|]. by intros us [? _].
Qed.

End DecodeRoundTrips2.

(** ** [List.Decode]: what the map holds, and when it panics *)

Lemma GSMUserData_loop_no_panic (fuel : nat) :
  ∀ i acc st, GSMUserData_loop fuel i acc st ≠ Panic.
Proof.
  induction fuel as [|fuel IH]; intros i acc st; [done|].
  cbn [GSMUserData_loop]. destruct (0 <? i); [|done].
  unfold mbind, M_bind, readByte.
  destruct (r st) as [|iei r1]; [done|]. cbn [ReadByte after_read r with_r].
  destruct r1 as [|lb r2]; [done|]. cbn [ReadByte after_read r with_r].
  unfold next, Next. pose proof (int_of_byte_range lb).
  destruct (Z.ltb_spec (int_of_byte lb) 0); [lia|].
  destruct (negb _); [done|apply IH].
Qed.

Lemma DestinationList_loop_no_panic (rounds : nat) :
  ∀ acc st, DestinationList_loop rounds acc st ≠ Panic.
Proof.
  induction rounds as [|rounds IH]; intros acc st; [done|].
  cbn [DestinationList_loop]. unfold mbind, M_bind, readByte, readBytes.
  destruct (r st) as [|b1 r1]; [done|]. cbn [ReadByte after_read r with_r].
  destruct r1 as [|b2 r2]; [done|]. cbn [ReadByte after_read r with_r].
  destruct r2 as [|b3 r3]; [done|]. cbn [ReadByte after_read r with_r].
  destruct (ReadBytes x00 r3) as [[line [[]|]] rest]; try done. apply IH.
Qed.

Lemma UnsuccessSme_loop_no_panic (rounds : nat) :
  ∀ acc st, UnsuccessSme_loop rounds acc st ≠ Panic.
Proof.
  induction rounds as [|rounds IH]; intros acc st; [done|].
  cbn [UnsuccessSme_loop]. unfold mbind, M_bind, readByte, readBytes.
  destruct (r st) as [|b1 r1]; [done|]. cbn [ReadByte after_read r with_r].
  destruct r1 as [|b2 r2]; [done|]. cbn [ReadByte after_read r with_r].
  destruct (ReadBytes x00 r2) as [[line [[]|]] rest]; try done.
  cbn [after_read]. unfold next, Next. cbn. apply IH.
Qed.

Section DecodeInvariants.
Context `{codecs : pdutext.Codecs}.

(** One round of the loop: a name without a case changes nothing; a name
    with a case sets its own key to a value of its kind; a break leaves
    the map alone; only [short_message] can panic. *)
Lemma Decode_field_stores (k : Name) (st : state) :
  match Decode_field k st with
  | Value _ st' =>
      (fieldmap.handled k = false ∧ st' = st)
      ∨ (∃ v, f st' = <[k := v]> (f st) ∧ fieldmap.kind_ok k v)
  | BreakLoop st' => f st' = f st
  | ReturnErr _ => False
  | Panic => k = ShortMessage
  end.
Proof.
  unfold Decode_field, fieldmap.handled.
  destruct (name_in k Decode_cstring_names) eqn:Hc.
  { unfold mbind, M_bind, readBytes.
    pose proof (ReadBytes_error x00 (r st)) as Herr.
    pose proof (ReadBytes_found x00 (r st)) as Hfound.
    destruct (ReadBytes x00 (r st)) as [[line err] rest].
    cbn in Herr. destruct Herr as [->| ->]; [|done].
    destruct (Hfound line rest eq_refl) as (_ & body & -> & _).
    cbn [after_read setField put]. right. eexists. split; [done|]. split; [done|apply last_snoc]. }
  destruct (name_in k Decode_fixed_names) eqn:Hf.
  { unfold mbind, M_bind, readByte.
    destruct (r st) as [|b rest]; [done|]. cbn [ReadByte after_read].
    unfold remember, setField, put.
    repeat (destruct (String.eqb k _);
            [right; exists (Fixed b); split; [done|by left]|]).
    right. exists (Fixed b). split; [done|by left]. }
  cbn [orb name_in existsb].
  destruct (String.eqb k UDHLength) eqn:E1.
  { apply String.eqb_eq in E1 as ->. unfold mbind, M_bind, get, readByte.
    destruct (udhiFlag st); cbn [negb].
    - destruct (r st) as [|b rest]; [done|]. cbn [ReadByte after_read].
      right. exists (Fixed b). split; [done|by right].
    - right. exists Null. split; [done|by left]. }
  destruct (String.eqb k GSMUserData) eqn:E2.
  { apply String.eqb_eq in E2 as ->. unfold mbind, M_bind, get.
    destruct (udhiFlag st); cbn [negb].
    - pose proof (only_r_GSMUserData_loop (Z.to_nat (udhLength st))
                    (udhLength st) [] st) as Hr.
      pose proof (GSMUserData_loop_no_panic (Z.to_nat (udhLength st))
                    (udhLength st) [] st) as Hp.
      pose proof (GSMUserData_loop_Value (Z.to_nat (udhLength st))
                    (udhLength st) [] st) as Hv.
      destruct (GSMUserData_loop _ _ _ st) as [ies st1|st1|err|];
        [|by rewrite Hr|done..].
      destruct (Hv ies st1 eq_refl) as (new & -> & Hwf & _).
      right. exists (UDH new). split; [by rewrite Hr|done].
    - right. exists Null. split; [done|by right]. }
  destruct (String.eqb k DestinationList) eqn:E3.
  { apply String.eqb_eq in E3 as ->. unfold mbind, M_bind, get.
    pose proof (only_r_DestinationList_loop (Z.to_nat (numDest st)) [] st) as Hr.
    pose proof (DestinationList_loop_no_panic (Z.to_nat (numDest st)) [] st) as Hp.
    destruct (DestinationList_loop _ _ st) as [l st1|st1|err|];
      [|by rewrite Hr|done..].
    right. exists (DestSmeList l). split; [by rewrite Hr|done]. }
  destruct (String.eqb k UnsuccessSme) eqn:E4.
  { apply String.eqb_eq in E4 as ->. unfold mbind, M_bind, get.
    pose proof (only_r_UnsuccessSme_loop (Z.to_nat (unsuccessCount st)) [] st) as Hr.
    pose proof (UnsuccessSme_loop_no_panic (Z.to_nat (unsuccessCount st)) [] st) as Hp.
    destruct (UnsuccessSme_loop _ _ st) as [l st1|st1|err|];
      [|by rewrite Hr|done..].
    right. exists (UnSmeList l). split; [by rewrite Hr|done]. }
  destruct (String.eqb k ShortMessage) eqn:E5; [|by left].
  apply String.eqb_eq in E5 as ->.
  unfold mbind, M_bind, get, put, next.
  destruct (udhiFlag st); cbn -[Next];
    (destruct (Next _ (r st)) as [[msg rest]|]; [|done]);
    right; eexists; by split.
Qed.

Lemma Decode_loop_kinds (l : List) :
  ∀ st,
    match Decode_loop l st with
    | Value _ st' | BreakLoop st' =>
        ∀ q v, f st' !! q = Some v →
               f st !! q = Some v ∨ (q ∈ l ∧ fieldmap.kind_ok q v)
    | ReturnErr _ => False
    | Panic => ShortMessage ∈ l
    end.
Proof.
  induction l as [|k l IH]; intros st; [by left|].
  rewrite Decode_loop_cons. pose proof (Decode_field_stores k st) as Hk.
  destruct (Decode_field k st) as [[] st1|st1|err|]; [| |done|].
  - specialize (IH st1).
    assert (Hstep : ∀ q v, f st1 !! q = Some v →
              f st !! q = Some v ∨ (q ∈ k :: l ∧ fieldmap.kind_ok q v)).
    { intros q v Hq. destruct Hk as [[_ ->]|(v0 & Hf & Hkind)]; [by left|].
      rewrite Hf in Hq. destruct (decide (k = q)) as [->|Hne].
      - rewrite lookup_insert_eq in Hq. injection Hq as <-.
        right. split; [apply list_elem_of_here|done].
      - rewrite lookup_insert_ne in Hq by done. by left. }
    destruct (Decode_loop l st1) as [[] st2|st2|err|]; try done.
    + intros q v Hq. destruct (IH q v Hq) as [H1|[Hin Hkind]]; [by apply Hstep|].
      right. split; [by apply list_elem_of_further|done].
    + intros q v Hq. destruct (IH q v Hq) as [H1|[Hin Hkind]]; [by apply Hstep|].
      right. split; [by apply list_elem_of_further|done].
    + by apply list_elem_of_further.
  - intros q v Hq. left. by rewrite <- Hk.
  - rewrite Hk. apply list_elem_of_here.
Qed.

(** X12.  A map that [Decode] returns holds nothing but names of the
    schema, each with a value of the kind its case builds: a [Fixed] for
    a one-octet name, a [Variable] ending in [0x00] for a C-string name, a
    [UDH] of well-formed elements or a [Null] for [gsm_sms_ud.udh], and so
    on. *)
Theorem Decode_map_kinds (l : List) (buf : list byte) (m : Map) (q : Name)
    (v : Body) :
  Decode l buf = Done m →
  m !! q = Some v →
  q ∈ l ∧ fieldmap.kind_ok q v.
Proof.
  unfold Decode. intros Hdone Hq.
  pose proof (Decode_loop_kinds l (init buf)) as Hl.
  destruct (Decode_loop l (init buf)) as [[] st|st|err|]; try done;
    injection Hdone as <-;
    (destruct (Hl q v Hq) as [Habs|H];
     [unfold init in Habs; cbn [f] in Habs; by rewrite lookup_empty in Habs
     |done]).
Qed.

Lemma Decode_field_unhandled (k : Name) (st : state) :
  fieldmap.handled k = false → Decode_field k st = Value tt st.
Proof.
  unfold fieldmap.handled, Decode_field. intros H.
  apply orb_false_iff in H as [H H3]. apply orb_false_iff in H as [H1 H2].
  rewrite H1, H2. cbn [name_in existsb] in H3.
  repeat (apply orb_false_iff in H3 as [-> H3]). done.
Qed.

(** X13.  Names without a case in the [switch] are skipped: [Decode]
    returns the same on a schema and on that schema without them. *)
Theorem Decode_skips_unhandled (l : List) (buf : list byte) :
  Decode l buf = Decode (List.filter fieldmap.handled l) buf.
Proof.
  unfold Decode. f_equal. generalize (init buf).
  induction l as [|k l IH]; intros st; [done|]. cbn [List.filter].
  destruct (fieldmap.handled k) eqn:Hk.
  - rewrite !Decode_loop_cons.
    destruct (Decode_field k st) as [[] st1|st1|err|]; [apply IH|done..].
  - rewrite Decode_loop_cons, Decode_field_unhandled by done. apply IH.
Qed.

(** X14.  [Decode] panics on no schema without [short_message], whatever
    the buffer. *)
Theorem Decode_panics_only_at_ShortMessage (l : List) (buf : list byte) :
  ShortMessage ∉ l → Decode l buf ≠ Panicked.
Proof.
  intros Hnot. unfold Decode.
  pose proof (Decode_loop_kinds l (init buf)) as Hl.
  by destruct (Decode_loop l (init buf)).
Qed.

(** X15.  At the first [short_message] of a schema, [Decode] panics
    exactly when the UDHI flag is set and the parsed [sm_length] is less
    than [udhLength + 1]. *)
Theorem ShortMessage_panics_iff (pre : List) (buf : list byte) (st : state) :
  Decode_loop pre (init buf) = Value tt st →
  ShortMessage ∉ pre →
  Decode (pre ++ [ShortMessage]) buf = Panicked
  ↔ udhiFlag st = true ∧ fixed_value (f st) SMLength < udhLength st + 1.
Proof.
  intros Hpre Hnot.
  destruct (Decode_loop_context pre buf st Hpre) as [(_ & _ & _ & Hsm) Hdom].
  specialize (Hsm (Hdom _ Hnot)).
  assert (HN : 0 ≤ fixed_value (f st) SMLength).
  { unfold fixed_value. destruct (f st !! SMLength) as [[b| | | | | |]|];
      try done. apply int_of_byte_range. }
  unfold Decode.
  rewrite Decode_loop_app, Hpre, Decode_loop_cons, Decode_field_ShortMessage.
  cbn zeta. unfold Next.
  destruct (udhiFlag st); cbn [smLength with_smLength]; rewrite Hsm.
  - destruct (Z.ltb_spec (fixed_value (f st) SMLength - (udhLength st + 1)) 0).
    + split; [intros _; split; [done|lia]|done].
    + split; [done|intros [_ ?]; lia].
  - destruct (Z.ltb_spec (fixed_value (f st) SMLength) 0); [lia|].
    split; [done|by intros [? _]].
Qed.

End DecodeInvariants.

(** ** Splitting a long message into parts *)

Lemma maxLen_range (text : pdutext.Codec) : 132 ≤ smpp.maxLen text ≤ 152.
Proof. destruct text; cbn; lia. Qed.

Lemma countParts_bounds (text : pdutext.Codec) (len : Z) :
  0 ≤ len →
  let n := smpp.countParts text len in
  1 ≤ n ∧ (n - 1) * smpp.maxLen text ≤ len ≤ n * smpp.maxLen text
  ∧ (0 < len → (n - 1) * smpp.maxLen text < len).
Proof.
  intros Hlen. cbn zeta. unfold smpp.countParts.
  pose proof (maxLen_range text) as HM.
  destruct (Z.eq_dec len 0) as [->|Hne].
  { replace (Z.quot (0 - 1) (smpp.maxLen text)) with 0; [lia|].
    change (0 - 1) with (- (1)). rewrite Z.quot_opp_l by lia.
    by rewrite Z.quot_small by lia. }
  rewrite Z.quot_div_nonneg by lia.
  pose proof (Z.div_mod (len - 1) (smpp.maxLen text) ltac:(lia)).
  pose proof (Z.mod_pos_bound (len - 1) (smpp.maxLen text) ltac:(lia)).
  nia.
Qed.

(** The octets of part [i], as a chunk of [rawMsg]. *)
Lemma part_payload_chunk (text : pdutext.Codec) (rawMsg : list byte) (i : nat) :
  Z.of_nat i < smpp.countParts text (Z.of_nat (length rawMsg)) →
  smpp.part_payload text rawMsg (Z.of_nat i)
  = Returns (take (Z.to_nat (smpp.maxLen text))
               (drop (i * Z.to_nat (smpp.maxLen text)) rawMsg)).
Proof.
  intros Hi.
  pose proof (maxLen_range text) as HM.
  pose proof (countParts_bounds text (Z.of_nat (length rawMsg)) ltac:(lia))
    as (Hn & [Hlo Hhi] & Hpos). 
  unfold smpp.part_payload, smpp.slice_expr.
  set (M := smpp.maxLen text) in *.
  set (n := smpp.countParts text _) in *.
  assert (Hd : Z.to_nat (Z.of_nat i * M) = (i * Z.to_nat M)%nat) by lia.
  destruct (Z.eqb_spec (Z.of_nat i) (n - 1)) as [Hlast|Hmid]; cbn [negb].
  - assert (Hle : Z.of_nat i * M ≤ Z.of_nat (length rawMsg)) by (rewrite Hlast; lia).
    destruct (Z.leb_spec 0 (Z.of_nat i * M)); [|lia].
    destruct (Z.leb_spec (Z.of_nat i * M) (Z.of_nat (length rawMsg))); [|lia].
    destruct (Z.leb_spec (Z.of_nat (length rawMsg)) (Z.of_nat (length rawMsg))); [|lia].
    cbn [andb]. rewrite Hd. f_equal.
    rewrite !take_ge; [done| |]; rewrite length_drop; nia.
  - assert (Hle : (Z.of_nat i + 1) * M ≤ Z.of_nat (length rawMsg)) by nia.
    destruct (Z.leb_spec 0 (Z.of_nat i * M)); [|lia].
    destruct (Z.leb_spec (Z.of_nat i * M) ((Z.of_nat i + 1) * M)); [|lia].
    destruct (Z.leb_spec ((Z.of_nat i + 1) * M) (Z.of_nat (length rawMsg))); [|lia].
    cbn [andb]. rewrite Hd. do 2 f_equal. lia.
Qed.

Lemma chunks_concat {A} (m : nat) (l : list A) (k a : nat) :
  concat (map (λ i, take m (drop (i * m) l)) (seq a k))
  = take (k * m) (drop (a * m) l).
Proof.
  revert a. induction k as [|k IH]; intros a; [done|].
  cbn [seq map concat]. rewrite IH.
  replace (S a * m)%nat with (a * m + m)%nat by lia.
  rewrite <- drop_drop, take_take_drop. f_equal; lia.
Qed.

(** X16.  The long-message path splits any [rawMsg] into [countParts]
    parts without a panic: every slice expression is in range, every part
    holds at most [maxLen] octets, every part but the last exactly
    [maxLen], no part of a non-empty message is empty, and the parts in
    order make up [rawMsg]. *)
Theorem parts_cover_message (text : pdutext.Codec) (rawMsg : list byte) :
  ∃ parts : list (list byte),
    Z.of_nat (length parts) = smpp.countParts text (Z.of_nat (length rawMsg))
    ∧ (∀ (i : nat) p, parts !! i = Some p →
         smpp.part_payload text rawMsg (Z.of_nat i) = Returns p
         ∧ Z.of_nat (length p) ≤ smpp.maxLen text
         ∧ (Z.of_nat i + 1 < Z.of_nat (length parts) →
            Z.of_nat (length p) = smpp.maxLen text)
         ∧ (rawMsg ≠ [] → p ≠ []))
    ∧ concat parts = rawMsg.
Proof.
  pose proof (maxLen_range text) as HM.
  pose proof (countParts_bounds text (Z.of_nat (length rawMsg)) ltac:(lia))
    as (Hn & [Hlo Hhi] & Hpos).
  set (M := smpp.maxLen text) in *.
  set (n := smpp.countParts text _) in *.
  exists (map (λ i, take (Z.to_nat M) (drop (i * Z.to_nat M) rawMsg))
            (seq 0 (Z.to_nat n))).
  rewrite length_map, length_seq. split; [lia|]. split.
  - intros i p Hp. rewrite list_lookup_fmap in Hp.
    destruct (seq 0 (Z.to_nat n) !! i) as [j|] eqn:Hj; [|done].
    apply lookup_seq in Hj as [-> Hi]. cbn in Hp. injection Hp as <-.
    split; [apply part_payload_chunk; fold n; lia|].
    rewrite length_take, length_drop. split; [lia|]. split; [nia|].
    intros Hne Hnil. apply (f_equal length) in Hnil.
    rewrite length_take, length_drop in Hnil. cbn in Hnil.
    destruct rawMsg as [|b bs]; [done|]. cbn [length] in *. nia.
  - rewrite chunks_concat. cbn [Nat.mul drop]. apply take_ge. nia.
Qed.

Lemma NewUDH_shape (ref total part : Z) :
  let ies := NewUDHConcatenatedShortMessage ref total part in
  Forall udh.IE_well_formed ies ∧ 5 ≤ UDH_Len ies ≤ 6.
Proof.
  cbn zeta. unfold NewUDHConcatenatedShortMessage.
  destruct (Z.le_gt_cases ref 255) as [H8|H16].
  - rewrite NewIE_8bit by done. split; [by repeat constructor|by cbn].
  - rewrite NewIE_16bit by done. split; [by repeat constructor|by cbn].
Qed.

Section LongMessage.
Context `{codecs : pdutext.Codecs}.

(** X17.  Every part of a long message decodes back.  For a 16-bit
    [ref] and a message of at most 255 parts, with the UDHI flag set, on
    the octets [uint8(payload.Len() + udh.Len() + 1)],
    [uint8(udh.Len())], the UDH of
    [NewUDHConcatenatedShortMessage(ref, countParts, i+1)] and the payload
    of part [i], the fields [sm_length], [gsm_sms_ud.udh.len],
    [gsm_sms_ud.udh], [short_message] are parsed without truncation of
    either length octet: [short_message] is the payload (through
    [decode_text]), [gsm_sms_ud.udh] is that UDH, and [IsConcatenated]
    on it returns [(true, ref, countParts, i+1)]. *)
Theorem long_message_part_round_trip (text : pdutext.Codec)
    (rawMsg : list byte) (ref i : Z) (ies : list UDHIE)
    (payload rest : list byte) (st : state) :
  0 ≤ ref < 65536 →
  smpp.countParts text (Z.of_nat (length rawMsg)) ≤ 255 →
  0 ≤ i < smpp.countParts text (Z.of_nat (length rawMsg)) →
  ies = NewUDHConcatenatedShortMessage ref
          (smpp.countParts text (Z.of_nat (length rawMsg))) (i + 1) →
  smpp.part_payload text rawMsg i = Returns payload →
  udhiFlag st = true →
  r st = smpp.part_sm_length payload ies :: byte_of_int (UDH_Len ies)
         :: UDH_Bytes ies ++ payload ++ rest →
  ∃ st',
    Decode_loop [SMLength; UDHLength; GSMUserData; ShortMessage] st
    = Value tt st'
    ∧ r st' = rest
    ∧ f st' !! ShortMessage
      = Some (SM (decode_text (dataCoding st) payload))
    ∧ f st' !! GSMUserData = Some (UDH ies)
    ∧ IsConcatenated ies
      = Returns (true, ref,
                 smpp.countParts text (Z.of_nat (length rawMsg)), i + 1).
Proof.
  intros Href Hn Hi -> Hpart Hu Hr.
  set (n := smpp.countParts text _) in *.
  pose proof (maxLen_range text) as HM.
  destruct (NewUDH_shape ref n (i + 1)) as [Hwf Hlen].
  set (ies := NewUDHConcatenatedShortMessage ref n (i + 1)) in *.
  assert (Hpay : Z.of_nat (length payload) ≤ 152).
  { replace i with (Z.of_nat (Z.to_nat i)) in Hpart by lia.
    rewrite part_payload_chunk in Hpart by (fold n; lia).
    injection Hpart as <-. rewrite length_take. lia. }
  destruct (Decode_loop_part st (smpp.part_sm_length payload ies)
              (byte_of_int (UDH_Len ies)) ies payload rest)
    as (st' & Hloop & Hrest & Hf); try done.
  { apply int_of_byte_of_small. lia. }
  { unfold smpp.part_sm_length, SM_Len. apply int_of_byte_of_small. lia. }
  exists st'. split; [done|]. split; [done|]. rewrite Hf.
  split; [by rewrite lookup_insert|].
  split; [by rewrite lookup_insert_ne, lookup_insert by name_neq|].
  apply IsConcatenated_NewIE; lia.
Qed.

End LongMessage.

(** ** [New] on what [List.Decode] stored *)

Lemma New_kind_ok (q : Name) (v : Body) (spare : list byte) :
  fieldmap.kind_ok q v →
  ∃ v',
    New q (mk_slice (Bytes v) spare) = Returns (Some v')
    ∧ (q ∉ [ErrorCode; MessageState; DestinationList; UnsuccessSme;
            GSMUserData] → v' = v)
    ∧ (q = GSMUserData →
       v' = if (2 <? length (Bytes v))%nat then v else Null)
    ∧ (q ∈ [ErrorCode; MessageState] →
       ∃ b, head (Bytes v) = Some b ∧ v' = Fixed b)
    ∧ (q ∈ [DestinationList; UnsuccessSme] → v' = Variable' (Bytes v)).
Proof.
  destruct v as [b|d| |d|l|l|ies]; cbn [fieldmap.kind_ok].
  - intros [Hq| ->].
    + unfold name_in in Hq. apply existsb_exists in Hq as (k & Hk & Heq).
      apply String.eqb_eq in Heq as <-. cbn in Hk.
      exists (Fixed b).
      repeat (destruct Hk as [<-|Hk];
              [split; [reflexivity|];
               split; [done|]; split; [name_neq|]; split; not_among|]).
      done.
    + exists (Fixed b). split; [reflexivity|].
      split; [done|]. split; [name_neq|]. split; not_among.
  - intros [Hq Hlast].
    assert (Hb : Variable_Bytes d = d) by (unfold Variable_Bytes; by rewrite Hlast).
    cbn [Bytes]. rewrite Hb.
    unfold name_in in Hq. apply existsb_exists in Hq as (k & Hk & Heq).
    apply String.eqb_eq in Heq as <-. cbn in Hk.
    destruct d as [|b d']; [done|].
    repeat (destruct Hk as [<-|Hk];
            [first
               [ exists (Variable' (b :: d')); split; [reflexivity|];
                 split; [done|]; split; [name_neq|]; split; not_among
               | exists (Fixed b); split; [reflexivity|];
                 split; [intros Hn; exfalso; apply Hn; among|];
                 split; [name_neq|]; split; [by exists b|not_among] ]|]).
    done.
  - intros [-> | ->]; exists Null; (split; [reflexivity|]);
      (split; [done|]); (split; [done|]); split; not_among.
  - intros ->. exists (SM d). split; [reflexivity|].
    split; [done|]. split; [name_neq|]. split; not_among.
  - intros ->. exists (Variable' (Bytes (DestSmeList l))).
    split; [reflexivity|].
    split; [intros Hn; exfalso; apply Hn; among|].
    split; [name_neq|]. split; [not_among|done].
  - intros ->. exists (Variable' (Bytes (UnSmeList l))).
    split; [reflexivity|].
    split; [intros Hn; exfalso; apply Hn; among|].
    split; [name_neq|]. split; [not_among|done].
  - intros [-> Hwf]. rewrite New_GSMUserData. cbn [slice_elems slice_spare Bytes].
    destruct (2 <? length (UDH_Bytes ies))%nat eqn:Hlen.
    + pose proof (New_loop_records _ _ (records_UDH_Bytes ies Hwf)
                    (length (UDH_Bytes ies)) [] spare [] (Nat.le_refl _)) as Hloop.
      cbn [app length] in Hloop. rewrite Hloop.
      exists (UDH ies). split; [done|].
      split; [done|]. split; [done|]. split; not_among.
    + exists Null. split; [done|].
      split; [intros Hn; exfalso; apply Hn; among|].
      split; [done|]. split; not_among.
Qed.

Lemma New_kind_ok_nil (q : Name) (v : Body) :
  fieldmap.kind_ok q v →
  Bytes v = [] →
  ∃ v',
    New q nil_slice = Returns (Some v')
    ∧ (q ∉ [ErrorCode; MessageState; DestinationList; UnsuccessSme;
            GSMUserData] → v' = v)
    ∧ (q = GSMUserData →
       v' = if (2 <? length (Bytes v))%nat then v else Null)
    ∧ (q ∈ [ErrorCode; MessageState] →
       ∃ b, head (Bytes v) = Some b ∧ v' = Fixed b)
    ∧ (q ∈ [DestinationList; UnsuccessSme] → v' = Variable' (Bytes v)).
Proof.
  intros Hk Hnil. rewrite Hnil.
  destruct v as [b|d| |d|l|l|ies]; cbn [fieldmap.kind_ok] in Hk; cbn [Bytes] in Hnil.
  - done.
  - destruct Hk as [_ Hlast]. unfold Variable_Bytes in Hnil.
    rewrite Hlast in Hnil. by rewrite Hnil in Hlast.
  - destruct Hk as [-> | ->]; exists Null; (split; [reflexivity|]);
      (split; [done|]); (split; [done|]); split; not_among.
  - subst. exists (SM []). split; [reflexivity|].
    split; [done|]. split; [name_neq|]. split; not_among.
  - subst. exists (Variable' []). split; [reflexivity|].
    split; [intros Hn; exfalso; apply Hn; among|].
    split; [name_neq|]. split; [not_among|done].
  - subst. exists (Variable' []). split; [reflexivity|].
    split; [intros Hn; exfalso; apply Hn; among|].
    split; [name_neq|]. split; [not_among|done].
  - destruct Hk as [-> _]. exists Null. split; [reflexivity|].
    split; [intros Hn; exfalso; apply Hn; among|].
    split; [done|]. split; not_among.
Qed.

Section NewOfDecoded.
Context `{codecs : pdutext.Codecs}.

(** X18.  [New] on the serialization of a field that [Decode] stored
    never panics and never returns [nil].  It gives the stored value back,
    except that [gsm_sms_ud.udh] of 2 octets or fewer becomes [Null],
    [error_code] and [message_state] (C strings for [Decode], one octet
    for [New]) become the [Fixed] of their first octet, and
    [dest_addresses] and [unsuccess_sme] become the [Variable] of their
    octets. *)
Theorem New_of_decoded (l : List) (buf : list byte) (m : Map) (q : Name)
    (v : Body) (data : slice) :
  Decode l buf = Done m →
  m !! q = Some v →
  slice_elems data = Bytes v →
  ∃ v',
    New q data = Returns (Some v')
    ∧ (q ∉ [ErrorCode; MessageState; DestinationList; UnsuccessSme;
            GSMUserData] → v' = v)
    ∧ (q = GSMUserData →
       v' = if (2 <? length (Bytes v))%nat then v else Null)
    ∧ (q ∈ [ErrorCode; MessageState] →
       ∃ b, head (Bytes v) = Some b ∧ v' = Fixed b)
    ∧ (q ∈ [DestinationList; UnsuccessSme] → v' = Variable' (Bytes v)).
Proof.
  unfold Decode. intros Hdone Hq Hdata.
  assert (Hkind : fieldmap.kind_ok q v).
  { pose proof (Decode_loop_kinds l (init buf)) as Hl.
    destruct (Decode_loop l (init buf)) as [[] st|st|err|]; try done;
      injection Hdone as <-;
      (destruct (Hl q v Hq) as [Habs|[_ H]];
       [unfold init in Habs; cbn [f] in Habs; by rewrite lookup_empty in Habs
       |done]). }
  destruct data as [|elems spare]; cbn [slice_elems] in Hdata.
  - by apply New_kind_ok_nil.
  - subst elems. by apply New_kind_ok.
Qed.

End NewOfDecoded.

(** ** [List.Decode]: the octets a frame was parsed from *)

Lemma readByte_Value (st st' : state) (b : byte) :
  readByte st = Value b st' → r st = b :: r st'.
Proof.
  unfold readByte. destruct (r st) as [|b0 rest]; [done|].
  cbn. by intros [= <- <-].
Qed.

Lemma readBytes_Value (st st' : state) (line : list byte) :
  readBytes x00 st = Value line st' →
  r st = line ++ r st' ∧ fieldmap.cstring line.
Proof.
  unfold readBytes. pose proof (ReadBytes_found x00 (r st)) as Hfound.
  destruct (ReadBytes x00 (r st)) as [[line0 err] rest].
  destruct err as [[]|]; [done..|]. cbn. intros [= <- <-].
  destruct (Hfound line0 rest eq_refl) as (Hr & body & -> & Hbody).
  split; [done|]. by exists body.
Qed.

Lemma DestinationList_loop_Value (rounds : nat) :
  ∀ acc st res st',
    DestinationList_loop rounds acc st = Value res st' →
    ∃ new,
      res = acc ++ new ∧ length new = rounds
      ∧ Forall (λ ds, fieldmap.cstring (DestAddr ds)) new
      ∧ r st = concat (map fieldmap.DestSme_wire new) ++ r st'.
Proof.
  induction rounds as [|rounds IH]; intros acc st res st' Hloop.
  { injection Hloop as <- <-. exists []. by rewrite app_nil_r. }
  cbn [DestinationList_loop] in Hloop. unfold mbind, M_bind in Hloop.
  destruct (readByte st) as [flag st1| | |] eqn:H1; try done.
  destruct (readByte st1) as [ton st2| | |] eqn:H2; try done.
  destruct (readByte st2) as [npi st3| | |] eqn:H3; try done.
  destruct (readBytes x00 st3) as [bt st4| | |] eqn:H4; try done.
  apply readByte_Value in H1, H2, H3. apply readBytes_Value in H4 as [H4 Hbt].
  apply IH in Hloop as (new & -> & Hlen & Hall & Hr).
  exists ({| Flag := flag; Ton := ton; Npi := npi; DestAddr := bt |} :: new).
  split; [by rewrite <- app_assoc|]. split; [by cbn; rewrite Hlen|].
  split; [by constructor|].
  cbn [map concat]. unfold fieldmap.DestSme_wire at 1.
  cbn [Flag Ton Npi DestAddr]. rewrite H1, H2, H3, H4, Hr. same_app.
Qed.

Section DecodeConsumed.
Context `{codecs : pdutext.Codecs}.

Lemma Decode_field_consumed (k : Name) (st st' : state) :
  Decode_field k st = Value tt st' →
  (fieldmap.handled k = false ∧ st' = st)
  ∨ (∃ v, f st' = <[k := v]> (f st)
          ∧ (k ≠ ShortMessage → k ≠ UnsuccessSme → r st = Bytes v ++ r st')).
Proof.
  unfold Decode_field, fieldmap.handled.
  destruct (name_in k Decode_cstring_names) eqn:Hc.
  { unfold mbind, M_bind. pose proof (only_r_readBytes x00 st) as Hst.
    destruct (readBytes x00 st) as [line st1| | |] eqn:Hread; try done.
    apply readBytes_Value in Hread as [Hr Hline].
    cbn. intros [= <-]. right. exists (Variable' line).
    split; [by rewrite Hst|]. intros _ _. cbn [Bytes r with_f].
    by rewrite cstring_Bytes. }
  destruct (name_in k Decode_fixed_names) eqn:Hf.
  { unfold mbind, M_bind. pose proof (only_r_readByte st) as Hst.
    destruct (readByte st) as [b st1| | |] eqn:Hread; try done.
    apply readByte_Value in Hread.
    unfold remember, setField, put.
    repeat (destruct (String.eqb k _);
            [intros [= <-]; right; exists (Fixed b);
             split; [by rewrite Hst|by intros _ _]|]).
    intros [= <-]. right. exists (Fixed b).
    split; [by rewrite Hst|by intros _ _]. }
  cbn [orb name_in existsb].
  destruct (String.eqb k UDHLength) eqn:E1.
  { apply String.eqb_eq in E1 as ->. unfold mbind, M_bind, get.
    destruct (udhiFlag st); cbn [negb].
    - pose proof (only_r_readByte st) as Hst.
      destruct (readByte st) as [b st1| | |] eqn:Hread; try done.
      apply readByte_Value in Hread. cbn. intros [= <-].
      right. exists (Fixed b). split; [by rewrite Hst|by intros _ _].
    - cbn. intros [= <-]. right. exists Null. by split. }
  destruct (String.eqb k GSMUserData) eqn:E2.
  { apply String.eqb_eq in E2 as ->. unfold mbind, M_bind, get.
    destruct (udhiFlag st); cbn [negb].
    - pose proof (only_r_GSMUserData_loop (Z.to_nat (udhLength st))
                    (udhLength st) [] st) as Hst.
      destruct (GSMUserData_loop _ _ _ st) as [ies st1| | |] eqn:Hloop;
        try done.
      apply GSMUserData_loop_Value in Hloop as (new & -> & _ & Hr & _).
      cbn. intros [= <-]. right. exists (UDH new).
      split; [by rewrite Hst|by intros _ _]. 
    - cbn. intros [= <-]. right. exists Null. by split. }
  destruct (String.eqb k DestinationList) eqn:E3.
  { apply String.eqb_eq in E3 as ->. unfold mbind, M_bind, get.
    pose proof (only_r_DestinationList_loop (Z.to_nat (numDest st)) [] st) as Hst.
    destruct (DestinationList_loop _ _ st) as [l st1| | |] eqn:Hloop; try done.
    apply DestinationList_loop_Value in Hloop as (new & -> & _ & Hall & Hr).
    cbn. intros [= <-]. right. exists (DestSmeList new).
    split; [by rewrite Hst|]. intros _ _. cbn [r with_f].
    by rewrite <- DestSme_wire_Bytes. }
  destruct (String.eqb k UnsuccessSme) eqn:E4.
  { apply String.eqb_eq in E4 as ->. unfold mbind, M_bind, get.
    pose proof (only_r_UnsuccessSme_loop (Z.to_nat (unsuccessCount st)) [] st) as Hst.
    destruct (UnsuccessSme_loop _ _ st) as [l st1| | |]; try done.
    cbn. intros [= <-]. right. exists (UnSmeList l).
    split; [by rewrite Hst|done]. }
  destruct (String.eqb k ShortMessage) eqn:E5; [|intros [= <-]; by left].
  apply String.eqb_eq in E5 as ->.
  unfold mbind, M_bind, get, put, next.
  destruct (udhiFlag st); cbn -[Next];
    (destruct (Next _ (r st)) as [[msg rest]|]; [|done]);
    intros [= <-]; right; eexists; by split.
Qed.

Lemma Decode_loop_consumed (l : List) :
  ∀ st st',
    NoDup l → ShortMessage ∉ l → UnsuccessSme ∉ l →
    (∀ k, k ∈ l → fieldmap.handled k = false → f st !! k = None) →
    Decode_loop l st = Value tt st' →
    r st = concat (map (λ k, from_option Bytes [] (f st' !! k)) l) ++ r st'.
Proof.
  induction l as [|k l IH]; intros st st' Hnd Hsm Hun Hnone Hloop.
  { by injection Hloop as <-. }
  apply NoDup_cons in Hnd as [Hk Hnd].
  apply not_elem_of_cons in Hsm as [Hsm1 Hsm], Hun as [Hun1 Hun].
  rewrite Decode_loop_cons in Hloop.
  pose proof (Decode_field_spec k st) as Hframe.
  destruct (Decode_field k st) as [[] st1| | |] eqn:Hfield; try done.
  destruct Hframe as [_ Hframe].
  pose proof (Decode_loop_spec l st1) as Hrest. rewrite Hloop in Hrest.
  destruct Hrest as [_ Hrest]. cbn [map concat]. rewrite (Hrest k Hk).
  assert (Hnone1 : ∀ q, q ∈ l → fieldmap.handled q = false → f st1 !! q = None).
  { intros q Hq Hh. rewrite Hframe by (by intros ->).
    apply Hnone; [by apply list_elem_of_further|done]. }
  rewrite <- app_assoc, <- (IH st1 st' Hnd Hsm Hun Hnone1 Hloop).
  apply Decode_field_consumed in Hfield as [[Hh ->]|(v & Hf & Hr)].
  - by rewrite (Hnone k (list_elem_of_here _ _) Hh).
  - rewrite Hf, lookup_insert_eq. cbn. by apply Hr.
Qed.

(** X19.  When the loop of [Decode] runs to the end of a schema without
    repeated names and without [short_message] and [unsuccess_sme], the
    octets it took from the buffer are the [Bytes()] of the stored
    fields, in the order of the schema. *)
Theorem Decode_reserializes (l : List) (buf : list byte) (st : state) :
  NoDup l → ShortMessage ∉ l → UnsuccessSme ∉ l →
  Decode_loop l (init buf) = Value tt st →
  buf = concat (map (λ k, from_option Bytes [] (f st !! k)) l) ++ r st.
Proof.
  intros Hnd Hsm Hun Hloop.
  by apply (Decode_loop_consumed l (init buf) st Hnd Hsm Hun).
Qed.

End DecodeConsumed.

(** ** [List.Decode]: the map of a prefix of the schema *)

Section DecodePrefix.
Context `{codecs : pdutext.Codecs}.

(** A field that is parsed is in the map from then on. *)
Lemma Decode_field_keeps (k : Name) (st : state) (q : Name) :
  match Decode_field k st with
  | Value _ st' | BreakLoop st' => is_Some (f st !! q) → is_Some (f st' !! q)
  | _ => True
  end.
Proof.
  pose proof (Decode_field_stores k st) as Hk.
  destruct (Decode_field k st) as [[] st1|st1|err|]; [| |done..].
  - destruct Hk as [[_ ->]|(v & -> & _)]; [done|].
    intros Hq. destruct (decide (k = q)) as [->|Hne].
    + by rewrite lookup_insert_eq.
    + by rewrite lookup_insert_ne.
  - by rewrite Hk.
Qed.

Lemma Decode_loop_keeps (l : List) (q : Name) :
  ∀ st,
    match Decode_loop l st with
    | Value _ st' | BreakLoop st' => is_Some (f st !! q) → is_Some (f st' !! q)
    | _ => True
    end.
Proof.
  induction l as [|k l IH]; intros st; [by cbn|].
  rewrite Decode_loop_cons. pose proof (Decode_field_keeps k st q) as Hk.
  destruct (Decode_field k st) as [[] st1|st1|err|]; [|done..].
  specialize (IH st1).
  destruct (Decode_loop l st1) as [[] st2|st2|err|]; [| |done..]; auto.
Qed.

Lemma Decode_loop_prefix (l : List) :
  ∀ st,
    match Decode_loop l st with
    | Value _ st' | BreakLoop st' =>
        ∃ pre post,
          l = pre ++ post
          ∧ (∀ k, k ∈ pre → fieldmap.handled k = true → is_Some (f st' !! k))
          ∧ (∀ q, q ∉ pre → f st' !! q = f st !! q)
    | _ => True
    end.
Proof.
  induction l as [|k l IH]; intros st.
  { exists [], []. split; [done|]. split; [|done].
    intros k Hk. by apply elem_of_nil in Hk. }
  rewrite Decode_loop_cons.
  pose proof (Decode_field_stores k st) as Hk.
  pose proof (Decode_field_spec k st) as Hframe.
  destruct (Decode_field k st) as [[] st1|st1|err|]; [| |done..].
  - specialize (IH st1). pose proof (Decode_loop_keeps l k st1) as Hkeep.
    destruct Hframe as [_ Hframe].
    assert (Hgoal : ∀ st2,
      (is_Some (f st1 !! k) → is_Some (f st2 !! k)) →
      (∃ pre post, l = pre ++ post
         ∧ (∀ k, k ∈ pre → fieldmap.handled k = true → is_Some (f st2 !! k))
         ∧ (∀ q, q ∉ pre → f st2 !! q = f st1 !! q)) →
      ∃ pre post, k :: l = pre ++ post
         ∧ (∀ k, k ∈ pre → fieldmap.handled k = true → is_Some (f st2 !! k))
         ∧ (∀ q, q ∉ pre → f st2 !! q = f st !! q)).
    { intros st2 Hkeep2 (pre & post & -> & Hin & Hout).
      exists (k :: pre), post. split; [done|]. split.
      - intros q Hq Hh. apply elem_of_cons in Hq as [->|Hq]; [|by apply Hin].
        apply Hkeep2. destruct Hk as [[Hk _]|(v & -> & _)]; [congruence|].
        by rewrite lookup_insert_eq.
      - intros q Hq. apply not_elem_of_cons in Hq as [Hne Hq].
        rewrite (Hout q Hq). by apply Hframe. }
    destruct (Decode_loop l st1) as [[] st2|st2|err|]; [| |done..];
      by apply Hgoal.
  - exists [], (k :: l). split; [done|]. split.
    + intros q Hq. by apply elem_of_nil in Hq.
    + intros q _. by rewrite Hk.
Qed.

(** X20.  The map [Decode] returns is that of a prefix of the schema:
    the schema splits into [pre ++ post] such that every name of [pre]
    with a case in the [switch] is in the map, and no name outside [pre]
    is. *)
Theorem Decode_map_prefix (l : List) (buf : list byte) (m : Map) :
  Decode l buf = Done m →
  ∃ pre post,
    l = pre ++ post
    ∧ (∀ k, k ∈ pre → fieldmap.handled k = true → is_Some (m !! k))
    ∧ (∀ q, q ∉ pre → m !! q = None).
Proof.
  unfold Decode. intros Hdone.
  pose proof (Decode_loop_prefix l (init buf)) as Hl.
  destruct (Decode_loop l (init buf)) as [[] st|st|err|]; try done;
    injection Hdone as <-;
    destruct Hl as (pre & post & Hl & Hin & Hout);
    exists pre, post; (split; [done|]); (split; [done|]);
    intros q Hq; by rewrite (Hout q Hq).
Qed.

End DecodePrefix.

(** ** Sample frames *)

(** A part of a concatenated message: [esm_class = 0x40],
    [sm_length = 8], UDH length 5, one element [00 03 07 02 01], the
    payload "AB", and one octet more. *)
Lemma ShortMessage_octets_witness :
  let pre := [ESMClass; SMLength; UDHLength; GSMUserData] in
  let buf := [x40; x08; x05; x00; x03; x07; x02; x01; x41; x42; x43] in
  let st := state_after (codecs := pdutext.marking_codecs) pre buf in
  ∃ st', Decode_field (codecs := pdutext.marking_codecs) ShortMessage st
         = Value tt st'
    ∧ r st = take (Z.to_nat 2) (r st) ++ r st'
    ∧ Z.of_nat (length (r st)) = 2 + Z.of_nat (length (r st'))
    ∧ (∀ post, Decode_loop (codecs := pdutext.marking_codecs)
                 (pre ++ ShortMessage :: post) (init buf)
               = Decode_loop (codecs := pdutext.marking_codecs) post st').
Proof.
  intros pre buf st.
  apply (ShortMessage_octets (codecs := pdutext.marking_codecs)
           pre buf st x08 2).
  - vm_compute. reflexivity.
  - not_in_schema.
  - vm_compute. reflexivity.
  - intros H. vm_compute in H. discriminate H.
  - intros _. exists x05. split; vm_compute; reflexivity.
  - split; by vm_compute.
Defined.

(** A frame that ends after [esm_class], where [sm_length] should
    follow. *)
Lemma Decode_truncated_frame_witness :
  Decode (codecs := pdutext.marking_codecs)
    ([SourceAddr; ESMClass] ++ SMLength :: [ShortMessage]) [x41; x00; x40]
  = Done (f (state_after (codecs := pdutext.marking_codecs)
               [SourceAddr; ESMClass] [x41; x00; x40]))
  ∧ (∀ l' buf' err,
       Decode (codecs := pdutext.marking_codecs) l' buf' ≠ Failed err).
Proof.
  apply (Decode_truncated_frame (codecs := pdutext.marking_codecs)).
  - vm_compute. reflexivity.
  - left. split; vm_compute; reflexivity.
Defined.

(** C2 does not hold: on the same truncated frame [Decode] returns the
    partial map and a nil error, whatever the codecs, so it is not the
    case that it fails with an error. *)
Lemma truncated_frame_returns_partial_map :
  (∀ codecs : pdutext.Codecs,
     Decode [SourceAddr; ESMClass; SMLength] [x41; x00; x40]
     = Done (<[ESMClass := Fixed x40]>
               (<[SourceAddr := Variable' [x41; x00]]> ∅)))
  ∧ ¬ (∀ codecs : pdutext.Codecs, ∃ err,
         Decode [SourceAddr; ESMClass; SMLength] [x41; x00; x40] = Failed err).
Proof.
  split.
  - intros codecs. vm_compute. reflexivity.
  - intros H. destruct (H pdutext.marking_codecs) as [err Herr].
    vm_compute in Herr. discriminate Herr.
Qed.

(** [data_coding = 0x03] and the two octets "AB": the Latin-1 decoder
    (its mark is "L") produced what is stored. *)
Lemma ShortMessage_decoder_witness :
  let pre := [DataCoding; SMLength] in
  let buf := [x03; x02; x41; x42; x43] in
  let st := state_after (codecs := pdutext.marking_codecs) pre buf in
  let st' := state_after (codecs := pdutext.marking_codecs)
               (pre ++ [ShortMessage]) buf in
  r st = [x41; x42] ++ r st'
  ∧ f st' !! ShortMessage = Some (SM (x4c :: [x41; x42])).
Proof.
  intros pre buf st st'.
  destruct (ShortMessage_decoder (codecs := pdutext.marking_codecs)
              pre buf st st') as (raw & Hraw & Hsm & _).
  - vm_compute. reflexivity.
  - vm_compute. reflexivity.
  - vm_compute. split; reflexivity.
Defined.

(** C3 does not hold: the schema has no [data_coding] before
    [short_message], and what is stored is the output of the GSM7 decoder
    on the raw octet [0x00], whatever the codecs; it is the raw octet only
    for a decoder that leaves it unchanged. *)
Lemma ShortMessage_decoded_without_data_coding :
  (DataCoding ∉ [SMLength; ShortMessage])
  ∧ (∀ codecs : pdutext.Codecs,
       Decode [SMLength; ShortMessage] [x01; x00]
       = Done (<[ShortMessage := SM (pdutext.GSM7_Decode [x00])]>
                 (<[SMLength := Fixed x01]> ∅)))
  ∧ ¬ (∀ codecs : pdutext.Codecs,
         Decode [SMLength; ShortMessage] [x01; x00]
         = Done (<[ShortMessage := SM [x00]]> (<[SMLength := Fixed x01]> ∅))).
Proof.
  split; [not_in_schema|]. split.
  - intros codecs. vm_compute. reflexivity.
  - intros H. specialize (H pdutext.marking_codecs).
    apply (f_equal (λ res, match res with
                           | Done m => m !! ShortMessage
                           | _ => None
                           end)) in H.
    vm_compute in H. discriminate H.
Qed.


(** A UDH length of 5 with 3 octets left: the element [00 03 07 ..] is
    cut short and [Decode] returns the three fields parsed before it. *)
Lemma GSMUserData_exhausted_witness :
  let pre := [ESMClass; SMLength; UDHLength] in
  let buf := [x40; x08; x05; x00; x03; x07] in
  Decode (codecs := pdutext.marking_codecs)
    (pre ++ GSMUserData :: [ShortMessage]) buf
  = Done (f (state_after (codecs := pdutext.marking_codecs) pre buf)).
Proof.
  intros pre buf.
  apply (GSMUserData_exhausted (codecs := pdutext.marking_codecs)
           pre [ShortMessage] buf _ x05).
  - vm_compute. reflexivity.
  - vm_compute. reflexivity.
  - vm_compute. reflexivity.
  - vm_compute. reflexivity.
Defined.

(** The reference [0x1234], part 2 of 3. *)
Lemma NewUDHConcatenatedShortMessage_witness :
  ∃ ie, NewUDHConcatenatedShortMessage 4660 3 2 = [ie]
    ∧ IEI ie = x08 ∧ IELength ie = x04
    ∧ int_of_byte <$> IEData ie = [18; 52; 3; 2].
Proof.
  destruct (NewUDHConcatenatedShortMessage_one_IE 4660 3 2)
    as (ie & Hie & _ & H16); [lia..|].
  destruct H16 as (H1 & H2 & hi & lo & Hdata & Hhi & Hlo & Href); [lia|].
  exists ie. repeat split; try done.
  rewrite Hdata. repeat f_equal; lia.
Defined.

(** The UDH of part 1 of 2 with reference 7, serialized into a slice with
    one octet of spare capacity. *)
Lemma New_GSMUserData_UDH_Bytes_witness :
  let ies := NewUDHConcatenatedShortMessage 7 2 1 in
  New GSMUserData (mk_slice (Bytes (UDH ies)) [x41]) = Returns (Some (UDH ies)).
Proof.
  intros ies.
  apply (New_GSMUserData_UDH_Bytes ies (mk_slice (Bytes (UDH ies)) [x41])).
  - reflexivity.
  - repeat constructor.
  - vm_compute. lia.
Defined.

(** C1 does not hold when [sm_length] is less than [udh.len + 1]: with
    the UDHI flag set, [sm_length = 0] and a UDH length of 0, the buffer
    (empty) has at least [0 - (0 + 1)] octets left, [short_message] asks
    it for that many, and [Next] panics on the negative count, whatever
    the codecs; no octets are taken and [Decode] returns nothing. *)
Lemma ShortMessage_negative_count_panics :
  (∀ codecs : pdutext.Codecs,
     let pre := [ESMClass; SMLength; UDHLength; GSMUserData] in
     let buf := [x40; x00; x00] in
     let st := state_after pre buf in
     Decode_loop pre (init buf) = Value tt st
     ∧ udhiFlag st = true
     ∧ f st !! SMLength = Some (Fixed x00)
     ∧ f st !! UDHLength = Some (Fixed x00)
     ∧ int_of_byte x00 - (int_of_byte x00 + 1) ≤ Z.of_nat (length (r st))
     ∧ Decode_field ShortMessage st = Panic
     ∧ Decode (pre ++ [ShortMessage]) buf = Panicked)
  ∧ ¬ (∀ codecs : pdutext.Codecs, ∃ st',
         Decode_field ShortMessage
           (state_after [ESMClass; SMLength; UDHLength; GSMUserData]
              [x40; x00; x00])
         = Value tt st').
Proof.
  split.
  - intros codecs. repeat split; try (vm_compute; reflexivity).
    vm_compute. discriminate.
  - intros H. destruct (H pdutext.marking_codecs) as [st' Hst'].
    vm_compute in Hst'. discriminate Hst'.
Qed.

(** ** Sample values and frames for the rest of the code *)

(** The reference [0x1234], part 2 of 3, read back. *)
Lemma IsConcatenated_NewUDH_witness :
  IsConcatenated (NewUDHConcatenatedShortMessage 4660 3 2)
  = Returns (true, 4660, 3, 2).
Proof. apply (IsConcatenated_NewUDH 4660 3 2); lia. Defined.

(** A UDH of two elements: a port-addressing element, then an 8-bit
    concatenation element. *)
Lemma IsConcatenated_well_formed_witness :
  let ies := [{| IEI := x05; IELength := x02; IEData := [x41; x42] |};
              {| IEI := x00; IELength := x03; IEData := [x07; x02; x01] |}] in
  ∃ concatenated ref total part,
    IsConcatenated ies = Returns (concatenated, ref, total, part)
    ∧ 0 ≤ ref < 65536 ∧ 0 ≤ total ≤ 255 ∧ 0 ≤ part ≤ 255
    ∧ (concatenated = false → ref = 0 ∧ total = 1 ∧ part = 1)
    ∧ (Forall (λ ie, ¬ udh.concat8 ie ∧ ¬ udh.concat16 ie) ies →
       concatenated = false)
    ∧ (∀ pre ie post,
         ies = pre ++ ie :: post →
         Forall (λ ie, ¬ udh.concat8 ie ∧ ¬ udh.concat16 ie) pre →
         (udh.concat8 ie →
          ∃ d0 d1 d2,
            IEData ie = [d0; d1; d2]
            ∧ (concatenated, ref, total, part)
              = (true, int_of_byte d0, int_of_byte d1, int_of_byte d2))
         ∧ (udh.concat16 ie →
            ∃ d0 d1 d2 d3,
              IEData ie = [d0; d1; d2; d3]
              ∧ (concatenated, ref, total, part)
                = (true, BigEndian_Uint16 d0 d1, int_of_byte d2,
                   int_of_byte d3))).
Proof.
  intros ies. apply (IsConcatenated_well_formed ies).
  repeat constructor.
Defined.

(** [New] on the five octets [00 03 07 02 01]. *)
Lemma New_GSMUserData_well_formed_witness :
  let data := mk_slice [x00; x03; x07; x02; x01] [] in
  let ies := [{| IEI := x00; IELength := x03; IEData := [x07; x02; x01] |}] in
  Forall udh.IE_well_formed ies
  ∧ (∃ used tail,
       slice_spare data = used ++ tail
       ∧ Bytes (UDH ies) = slice_elems data ++ used)
  ∧ (∃ res, IsConcatenated ies = Returns res).
Proof.
  intros data ies. apply (New_GSMUserData_well_formed data ies).
  vm_compute. reflexivity.
Defined.

(** After [esm_class = 0x40], [sm_length = 8] and a UDH length of 5: the
    element [00 03 07 02 01], then "ABC". *)
Lemma GSMUserData_round_trip_witness :
  let pre := [ESMClass; SMLength; UDHLength] in
  let buf := [x40; x08; x05; x00; x03; x07; x02; x01; x41; x42; x43] in
  let st := state_after (codecs := pdutext.marking_codecs) pre buf in
  let ies := [{| IEI := x00; IELength := x03; IEData := [x07; x02; x01] |}] in
  Decode_field (codecs := pdutext.marking_codecs) GSMUserData st
  = Value tt (with_f (<[GSMUserData := UDH ies]> (f st))
                (with_r [x41; x42; x43] st)).
Proof.
  intros pre buf st ies.
  apply (GSMUserData_round_trip (codecs := pdutext.marking_codecs)
           st ies [x41; x42; x43]).
  - vm_compute. reflexivity.
  - constructor; [vm_compute; reflexivity|constructor].
  - vm_compute. reflexivity.
  - vm_compute. reflexivity.
Defined.

(** A UDH length of 1 and the element [00 03 07 02 01]: the element is
    read whole, past the declared length. *)
Lemma GSMUserData_stored_witness :
  let buf := [x40; x08; x01; x00; x03; x07; x02; x01; x41] in
  let st := state_after (codecs := pdutext.marking_codecs)
              [ESMClass; SMLength; UDHLength] buf in
  let st' := state_after (codecs := pdutext.marking_codecs)
               [ESMClass; SMLength; UDHLength; GSMUserData] buf in
  ∃ ies,
    f st' = <[GSMUserData := UDH ies]> (f st)
    ∧ Forall udh.IE_well_formed ies
    ∧ r st = Bytes (UDH ies) ++ r st'
    ∧ udhLength st ≤ Body_Len (UDH ies)
    ∧ (∃ res, IsConcatenated ies = Returns res).
Proof.
  intros buf st st'.
  apply (GSMUserData_stored (codecs := pdutext.marking_codecs) st st').
  - vm_compute. reflexivity.
  - vm_compute. reflexivity.
Defined.

(** [source_addr] on "A", its terminator, and one octet more. *)
Lemma cstring_round_trip_witness :
  let st := init [x41; x00; x42] in
  Decode_field (codecs := pdutext.marking_codecs) SourceAddr st
  = Value tt (with_f (<[SourceAddr := Variable' (Bytes (Variable' [x41]))]> (f st))
                (with_r [x42] st)).
Proof.
  intros st.
  apply (cstring_round_trip (codecs := pdutext.marking_codecs)
           SourceAddr st [x41] [x42]).
  - reflexivity.
  - change (Variable_String [x41]) with [x41]. no_zero.
  - reflexivity.
Defined.

(** [number_of_dests = 1], then one entry with the address "A". *)
Lemma DestinationList_round_trip_witness :
  let buf := [x01; x01; x01; x01; x41; x00; x43] in
  let st := state_after (codecs := pdutext.marking_codecs) [NumberDests] buf in
  let l := [{| Flag := x01; Ton := x01; Npi := x01; DestAddr := [x41; x00] |}] in
  Decode_field (codecs := pdutext.marking_codecs) DestinationList st
  = Value tt (with_f (<[DestinationList := DestSmeList l]> (f st))
                (with_r [x43] st)).
Proof.
  intros buf st l.
  apply (DestinationList_round_trip (codecs := pdutext.marking_codecs)
           st l [x43]).
  - constructor; [|constructor]. exists [x41]. split; [reflexivity|no_zero].
  - vm_compute. reflexivity.
  - vm_compute. reflexivity.
Defined.

(** A part with the payload "AB" after the UDH [00 03 07 02 01]. *)
Lemma concatenated_part_round_trip_witness :
  let buf := [x40; x08; x05; x00; x03; x07; x02; x01; x41; x42; x43] in
  let st := state_after (codecs := pdutext.marking_codecs) [ESMClass] buf in
  let ies := [{| IEI := x00; IELength := x03; IEData := [x07; x02; x01] |}] in
  ∃ st',
    Decode_loop (codecs := pdutext.marking_codecs)
      [SMLength; UDHLength; GSMUserData; ShortMessage] st
    = Value tt st'
    ∧ r st' = [x43]
    ∧ f st' = <[ShortMessage := SM (decode_text (codecs := pdutext.marking_codecs)
                                      (dataCoding st) [x41; x42])]>
                (<[GSMUserData := UDH ies]>
                   (<[UDHLength := Fixed x05]>
                      (<[SMLength := Fixed x08]> (f st)))).
Proof.
  intros buf st ies.
  apply (concatenated_part_round_trip (codecs := pdutext.marking_codecs)
           st x08 x05 ies [x41; x42] [x43]).
  - vm_compute. reflexivity.
  - constructor; [vm_compute; reflexivity|constructor].
  - vm_compute. reflexivity.
  - vm_compute. reflexivity.
  - vm_compute. reflexivity.
Defined.

(** [no_unsuccess = 1], then one entry with the address "A" and the error
    code [00 00 00 0b], which does not end in [0x00]. *)
Lemma UnsuccessSme_round_trip_witness :
  let buf := [x01; x01; x01; x41; x00; x00; x00; x00; x0b; x43] in
  let st := state_after (codecs := pdutext.marking_codecs) [NoUnsuccess] buf in
  let l := [{| UnTon := x01; UnNpi := x01; UnDestAddr := [x41; x00];
               ErrCode := [x00; x00; x00; x0b] |}] in
  Decode_field (codecs := pdutext.marking_codecs) UnsuccessSme st
  = Value tt (with_f (<[UnsuccessSme := UnSmeList l]> (f st)) (with_r [x43] st))
  ∧ (Bytes (UnSmeList l) = concat (map fieldmap.UnSme_wire l)
     ↔ Forall (λ us, last (ErrCode us) = Some x00) l).
Proof.
  intros buf st l.
  apply (UnsuccessSme_round_trip (codecs := pdutext.marking_codecs)
           st l [x43]).
  - constructor; [|constructor]. split; [|reflexivity].
    exists [x41]. split; [reflexivity|no_zero].
  - vm_compute. reflexivity.
  - vm_compute. reflexivity.
Defined.

(** The map of a bind-like frame holds [esm_class] as a [Fixed]. *)
Lemma Decode_map_kinds_witness :
  ESMClass ∈ [SourceAddr; ESMClass]
  ∧ fieldmap.kind_ok ESMClass (Fixed x40).
Proof.
  apply (Decode_map_kinds (codecs := pdutext.marking_codecs)
           [SourceAddr; ESMClass] [x41; x00; x40]
           (<[ESMClass := Fixed x40]> (<[SourceAddr := Variable' [x41; x00]]> ∅))
           ESMClass (Fixed x40)).
  - vm_compute. reflexivity.
  - vm_compute. reflexivity.
Defined.

(** A schema without [short_message]. *)
Lemma Decode_panics_only_at_ShortMessage_witness :
  Decode (codecs := pdutext.marking_codecs)
    [ESMClass; SMLength; UDHLength; GSMUserData] [x40; x00; x00]
  ≠ Panicked.
Proof.
  apply (Decode_panics_only_at_ShortMessage (codecs := pdutext.marking_codecs)).
  not_in_schema.
Defined.

(** The UDHI flag set, [sm_length = 0] and a UDH length of 0. *)
Lemma ShortMessage_panics_iff_witness :
  let pre := [ESMClass; SMLength; UDHLength; GSMUserData] in
  let buf := [x40; x00; x00] in
  let st := state_after (codecs := pdutext.marking_codecs) pre buf in
  Decode (codecs := pdutext.marking_codecs) (pre ++ [ShortMessage]) buf
  = Panicked
  ↔ udhiFlag st = true ∧ fixed_value (f st) SMLength < udhLength st + 1.
Proof.
  intros pre buf st.
  apply (ShortMessage_panics_iff (codecs := pdutext.marking_codecs) pre buf st).
  - vm_compute. reflexivity.
  - not_in_schema.
Defined.

(** The only part of the two-octet message "AB", with the reference 7. *)
Lemma long_message_part_round_trip_witness :
  let rawMsg := [x41; x42] in
  let ies := NewUDHConcatenatedShortMessage 7 1 1 in
  let buf := [x40; x08; x05; x00; x03; x07; x01; x01; x41; x42; x43] in
  let st := state_after (codecs := pdutext.marking_codecs) [ESMClass] buf in
  ∃ st',
    Decode_loop (codecs := pdutext.marking_codecs)
      [SMLength; UDHLength; GSMUserData; ShortMessage] st
    = Value tt st'
    ∧ r st' = [x43]
    ∧ f st' !! ShortMessage
      = Some (SM (decode_text (codecs := pdutext.marking_codecs)
                    (dataCoding st) rawMsg))
    ∧ f st' !! GSMUserData = Some (UDH ies)
    ∧ IsConcatenated ies
      = Returns (true, 7,
                 smpp.countParts pdutext.Other (Z.of_nat (length rawMsg)),
                 0 + 1).
Proof.
  intros rawMsg ies buf st.
  apply (long_message_part_round_trip (codecs := pdutext.marking_codecs)
           pdutext.Other rawMsg 7 0 ies rawMsg [x43] st).
  - lia.
  - by vm_compute.
  - split; [lia|by vm_compute].
  - reflexivity.
  - vm_compute. reflexivity.
  - vm_compute. reflexivity.
  - vm_compute. reflexivity.
Defined.

(** [error_code] is a C string for [Decode] and one octet for [New]. *)
Lemma New_of_decoded_witness :
  let v := Variable' [x41; x00] in
  ∃ v',
    New ErrorCode (mk_slice [x41; x00] []) = Returns (Some v')
    ∧ (ErrorCode ∉ [ErrorCode; MessageState; DestinationList; UnsuccessSme;
                    GSMUserData] → v' = v)
    ∧ (ErrorCode = GSMUserData →
       v' = if (2 <? length (Bytes v))%nat then v else Null)
    ∧ (ErrorCode ∈ [ErrorCode; MessageState] →
       ∃ b, head (Bytes v) = Some b ∧ v' = Fixed b)
    ∧ (ErrorCode ∈ [DestinationList; UnsuccessSme] → v' = Variable' (Bytes v)).
Proof.
  intros v.
  apply (New_of_decoded (codecs := pdutext.marking_codecs)
           [ErrorCode] [x41; x00] (<[ErrorCode := v]> ∅) ErrorCode v
           (mk_slice [x41; x00] [])).
  - vm_compute. reflexivity.
  - vm_compute. reflexivity.
  - reflexivity.
Defined.

(** A frame of [source_addr] and [esm_class], and one octet more. *)
Lemma Decode_reserializes_witness :
  let l := [SourceAddr; ESMClass] in
  let buf := [x41; x00; x40; x43] in
  let st := state_after (codecs := pdutext.marking_codecs) l buf in
  buf = concat (map (λ k, from_option Bytes [] (f st !! k)) l) ++ r st.
Proof.
  intros l buf st.
  apply (Decode_reserializes (codecs := pdutext.marking_codecs) l buf st).
  - not_in_schema.
  - not_in_schema.
  - not_in_schema.
  - vm_compute. reflexivity.
Defined.

(** A frame that ends where [sm_length] should start. *)
Lemma Decode_map_prefix_witness :
  let l := [SourceAddr; ESMClass; SMLength] in
  let m : Map := <[ESMClass := Fixed x40]>
                   (<[SourceAddr := Variable' [x41; x00]]> ∅) in
  ∃ pre post,
    l = pre ++ post
    ∧ (∀ k, k ∈ pre → fieldmap.handled k = true → is_Some (m !! k))
    ∧ (∀ q, q ∉ pre → m !! q = None).
Proof.
  intros l m.
  apply (Decode_map_prefix (codecs := pdutext.marking_codecs)
           l [x41; x00; x40] m).
  vm_compute. reflexivity.
Defined.
